(** * density-areas: Poisson brackets on density spaces and symplectic areas

    A shallow embedding of [density_areas.py].  The module is a thin layer of
    plumbing over three collaborators: SymPy (parsing, differentiation,
    integration, lambdification and the arithmetic of symbolic expressions),
    NumPy (float constants and elementary functions) and SciPy ([quad] and
    [dblquad]).  The collaborators are taken as records of operations; the four
    functions of the module are translated over them.

    - Exceptions are values of [exn]; a call either returns or raises
      ([outcome]).
    - The three bracket evaluators run in a monad [M] that threads a log of the
      collaborator calls they make, so that what is (and is not) called, and
      in which order, can be stated.
    - A SymPy [Symbol] is represented by its name; where the code uses it as an
      expression it is injected by [e_symbol].
    - What the collaborators are assumed to do is stated as contracts
      ([NegationLaws], [AlgebraLaws], [FloatLaws]); the module [Ideal] builds
      collaborators over the real numbers that obey them. *)

From Stdlib Require Import String Ascii ZArith NArith List Bool.
From Stdlib Require Import Reals Lra FunctionalExtensionality.
From Stdlib Require Import ClassicalEpsilon.
Import ListNotations.

Local Open Scope string_scope.
Local Open Scope list_scope.

(** ** Python values, exceptions and outcomes *)

(** The values a caller can pass for the [numerical] flag. *)
Inductive pyval : Type :=
| PyNone
| PyBool (b : bool)
| PyInt (z : Z)
| PyStr (s : string).


(** Python's [v == True]: [bool] is a subclass of [int], so [1 == True]. *)
Definition py_eq_True (v : pyval) : bool :=
  match v with
  | PyBool b => b
  | PyInt z => Z.eqb z 1
  | _ => false
  end.

(** An argument with a default value: [None] when the caller omits it. *)
Definition arg_or_default (a : option pyval) (dflt : pyval) : pyval :=
  match a with Some v => v | None => dflt end.

Inductive exn : Type :=
| ExpressionParseError (msg : string)
| IntegrationUnsupportedError
| QuadratureError
| IndexError.

Inductive outcome (A : Type) : Type :=
| Ok (a : A)
| Raise (e : exn).
Arguments Ok {A} a.
Arguments Raise {A} e.

Definition obind {A B} (c : outcome A) (k : A -> outcome B) : outcome B :=
  match c with
  | Ok a => k a
  | Raise e => Raise e
  end.

Definition omap {A B} (f : A -> B) (c : outcome A) : outcome B :=
  obind c (fun a => Ok (f a)).

Declare Scope outcome_scope.
Delimit Scope outcome_scope with outcome.
Notation "x <-? c ;; k" := (obind c (fun x => k))
  (at level 100, c at next level, right associativity) : outcome_scope.

(** [l[n]] for a Python list and a non-negative literal index. *)
Definition index {A} (l : list A) (n : nat) : outcome A :=
  match nth_error l n with
  | Some a => Ok a
  | None => Raise IndexError
  end.

(** ** The collaborators *)

(** Python floats with the NumPy constants and functions the module uses. *)
Record NumPy : Type := {
  float : Type;
  f_of_Z : Z -> float;              (* an int literal used as a float *)
  f_mul : float -> float -> float;
  f_div : float -> float -> float;
  f_neg : float -> float;
  np_pi : float;
  np_sin : float -> float;
  np_cos : float -> float
}.

(** SymPy.  Parsing and integration can fail; differentiation, arithmetic,
    lambdification and the conversion of a symbolic number to a float are
    total.  The callable made by [lambdify] can raise when it is called. *)
Record SymPy (np : NumPy) : Type := {
  expr : Type;
  sympify : string -> outcome expr;
  e_symbol : string -> expr;
  diff : expr -> string -> expr;
  integrate : expr -> string * expr * expr -> outcome expr;
  lambdify : list string -> expr -> string -> list (float np) -> outcome (float np);
  e_int : Z -> expr;                (* an int literal coerced to an expression *)
  e_pi : expr;
  e_sin : expr -> expr;
  e_add : expr -> expr -> expr;
  e_mul : expr -> expr -> expr;
  e_sub : expr -> expr -> expr;
  e_neg : expr -> expr;
  e_div : expr -> expr -> expr;
  e_pow : expr -> N -> expr;
  to_float : expr -> float np        (* [float(e)], as SciPy does on a bound *)
}.

(** SciPy.  [dblquad func a b gfun hfun] integrates [func(y, x)] for [x] from
    [a] to [b] (outer) and [y] from [gfun(x)] to [hfun(x)] (inner). *)
Record SciPy (np : NumPy) : Type := {
  quad : (float np -> outcome (float np)) -> float np -> float np
         -> outcome (float np * float np);
  dblquad : (float np -> float np -> outcome (float np)) -> float np -> float np
            -> (float np -> float np) -> (float np -> float np)
            -> outcome (float np * float np)
}.

Arguments expr {np} _.
Arguments sympify {np} _ _.
Arguments e_symbol {np} _ _.
Arguments diff {np} _ _ _.
Arguments integrate {np} _ _ _.
Arguments lambdify {np} _ _ _ _ _.
Arguments e_int {np} _ _.
Arguments e_pi {np} _.
Arguments e_sin {np} _ _.
Arguments e_add {np} _ _ _.
Arguments e_mul {np} _ _ _.
Arguments e_sub {np} _ _ _.
Arguments e_neg {np} _ _.
Arguments e_div {np} _ _ _.
Arguments e_pow {np} _ _ _.
Arguments to_float {np} _ _.
Arguments quad {np} _ _ _ _.
Arguments dblquad {np} _ _ _ _ _ _.

(** ** The module *)

Section DensityAreas.

Context {np : NumPy} (sym : SymPy np) (sci : SciPy np).

Local Abbreviation float := (float np).
Local Abbreviation expr := (expr sym).

(** What a bracket evaluator returns: a symbolic expression, or the pair
    (approximation, estimated error) of the quadrature. *)
Inductive result : Type :=
| Exact (e : expr)
| Numeric (r : float * float).

(** The collaborator calls an evaluator makes. *)
Inductive event : Type :=
| ESympify (src : string)
| EDiff (e : expr) (x : string)
| EIntegrate (e : expr) (x : string) (lo hi : expr)
| ELambdify (vars : list string) (e : expr)
| EDblquad (func : float -> float -> outcome float) (a b : float)
           (gfun hfun : float -> float).

(** Computations that log their collaborator calls and may raise. *)
Definition M (A : Type) : Type := list event -> list event * outcome A.

Definition ret {A} (a : A) : M A := fun log => (log, Ok a).

Definition bind {A B} (c : M A) (k : A -> M B) : M B :=
  fun log =>
    match c log with
    | (log', Ok a) => k a log'
    | (log', Raise e) => (log', Raise e)
    end.

Definition call {A} (ev : event) (r : outcome A) : M A :=
  fun log => (log ++ [ev], r).

Definition run {A} (c : M A) : list event * outcome A := c [].

Notation "x <- c ;; k" := (bind c (fun x => k))
  (at level 100, c at next level, right associativity).

Definition sym_sympify (s : string) : M expr :=
  call (ESympify s) (sympify sym s).

Definition sym_diff (e : expr) (x : string) : M expr :=
  call (EDiff e x) (Ok (diff sym e x)).

Definition sym_integrate (e : expr) (rng : string * expr * expr) : M expr :=
  let '(x, lo, hi) := rng in
  call (EIntegrate e x lo hi) (integrate sym e rng).

Definition sym_lambdify (vars : list string) (e : expr) (modules : string)
  : M (list float -> outcome float) :=
  call (ELambdify vars e) (Ok (lambdify sym vars e modules)).

Definition scipy_dblquad (func : float -> float -> outcome float) (a b : float)
  (gfun hfun : float -> float) : M (float * float) :=
  call (EDblquad func a b gfun hfun) (dblquad sci func a b gfun hfun).

(** [PoissonWasserstein_R2(tau, rho, function1, function2, numerical=False)] *)
Definition PoissonWasserstein_R2 (tau rho function1 function2 : string)
  (numerical : option pyval) : M result :=
  let numerical := arg_or_default numerical (PyBool false) in
  let x1 := "x1" in
  let x2 := "x2" in
  tau <- sym_sympify tau ;;
  rho <- sym_sympify rho ;;
  ff <- sym_sympify function1 ;;
  hh <- sym_sympify function2 ;;
  ff_x1 <- sym_diff ff x1 ;;
  hh_x2 <- sym_diff hh x2 ;;
  hh_x1 <- sym_diff hh x1 ;;
  ff_x2 <- sym_diff ff x2 ;;
  let bracket_ff_hh :=
    e_mul sym (e_sub sym (e_mul sym ff_x1 hh_x2) (e_mul sym hh_x1 ff_x2)) tau in
  let integrand := e_mul sym bracket_ff_hh rho in
  if py_eq_True numerical then
    integrand <- sym_lambdify [x1; x2] integrand "numpy" ;;
    r <- scipy_dblquad (fun y x => integrand [y; x]) (f_of_Z np 0) (f_of_Z np 1)
           (fun x2 => f_of_Z np 0) (fun x2 => f_of_Z np 1) ;;
    ret (Numeric r)
  else
    integrand <- sym_integrate integrand (x1, e_int sym 0, e_int sym 1) ;;
    integral <- sym_integrate integrand (x2, e_int sym 0, e_int sym 1) ;;
    ret (Exact integral).

(** [2*sym.pi], [1/(4*sym.pi**2)] and [1/(4*sym.pi)]. *)
Definition two_sym_pi : expr := e_mul sym (e_int sym 2) (e_pi sym).

Definition norm_T2 : expr :=
  e_div sym (e_int sym 1) (e_mul sym (e_int sym 4) (e_pow sym (e_pi sym) 2)).

Definition norm_S2 : expr :=
  e_div sym (e_int sym 1) (e_mul sym (e_int sym 4) (e_pi sym)).

(** [PoissonWasserstein_T2(tau, rho, function1, function2, numerical=False)] *)
Definition PoissonWasserstein_T2 (tau rho function1 function2 : string)
  (numerical : option pyval) : M result :=
  let numerical := arg_or_default numerical (PyBool false) in
  let theta1 := "theta1" in
  let theta2 := "theta2" in
  tau <- sym_sympify tau ;;
  rho <- sym_sympify rho ;;
  ff <- sym_sympify function1 ;;
  hh <- sym_sympify function2 ;;
  ff_1 <- sym_diff ff theta1 ;;
  hh_2 <- sym_diff hh theta2 ;;
  hh_1 <- sym_diff hh theta1 ;;
  ff_2 <- sym_diff ff theta2 ;;
  let bracket_ff_hh :=
    e_mul sym (e_sub sym (e_mul sym ff_1 hh_2) (e_mul sym hh_1 ff_2)) tau in
  let integrand := e_mul sym bracket_ff_hh rho in
  if py_eq_True numerical then
    integrand <-
      sym_lambdify [theta1; theta2] (e_mul sym norm_T2 integrand) "numpy" ;;
    r <- scipy_dblquad (fun y x => integrand [y; x])
           (f_of_Z np 0) (to_float sym two_sym_pi)
           (fun theta2 => f_of_Z np 0) (fun theta2 => to_float sym two_sym_pi) ;;
    ret (Numeric r)
  else
    integrand <- sym_integrate integrand (theta1, e_int sym 0, two_sym_pi) ;;
    integral <- sym_integrate integrand (theta2, e_int sym 0, two_sym_pi) ;;
    ret (Exact (e_mul sym norm_T2 integral)).

(** [PoissonWasserstein_S2(tau, rho, function1, function2, numerical=False)] *)
Definition PoissonWasserstein_S2 (tau rho function1 function2 : string)
  (numerical : option pyval) : M result :=
  let numerical := arg_or_default numerical (PyBool false) in
  let theta := "theta" in
  let phi := "phi" in
  tau <- sym_sympify tau ;;
  rho <- sym_sympify rho ;;
  ff <- sym_sympify function1 ;;
  hh <- sym_sympify function2 ;;
  ff_theta <- sym_diff ff theta ;;
  hh_phi <- sym_diff hh phi ;;
  hh_theta <- sym_diff hh theta ;;
  ff_phi <- sym_diff ff phi ;;
  let bracket_ff_hh :=
    e_mul sym
      (e_sub sym (e_mul sym ff_theta hh_phi) (e_mul sym hh_theta ff_phi)) tau in
  let integrand :=
    e_mul sym (e_mul sym bracket_ff_hh rho) (e_sin sym (e_symbol sym theta)) in
  if py_eq_True numerical then
    integrand <-
      sym_lambdify [theta; phi] (e_mul sym norm_S2 integrand) "numpy" ;;
    r <- scipy_dblquad (fun y x => integrand [y; x])
           (f_of_Z np 0) (f_mul np (f_of_Z np 2) (np_pi np))
           (fun phi => f_of_Z np 0) (fun phi => np_pi np) ;;
    ret (Numeric r)
  else
    integrand <- sym_integrate integrand (theta, e_int sym 0, e_pi sym) ;;
    integral <- sym_integrate integrand (phi, e_int sym 0, two_sym_pi) ;;
    ret (Exact (e_mul sym norm_S2 integral)).

(** The three bracket evaluators. *)
Definition evaluators
  : list (string -> string -> string -> string -> option pyval -> M result) :=
  [PoissonWasserstein_R2; PoissonWasserstein_T2; PoissonWasserstein_S2].

(** [1/(4*np.pi)] *)
Definition norm_area : float :=
  f_div np (f_of_Z np 1) (f_mul np (f_of_Z np 4) (np_pi np)).

Local Open Scope outcome_scope.

(** [area_Omega_S2(Omega, I_1, I_2)].  The caller may pass any object for
    [Omega]; the name is rebound by the local [def Omega], which is what the
    nested functions close over.  The inner quadratures keep the first
    component of their result. *)
Definition area_Omega_S2 {A : Type} (Omega : A) (I_1 I_2 : list float)
  : outcome (float * float) :=
  let Omega := fun theta phi s t : float =>
    f_mul np (np_sin np theta) (np_cos np phi) in
  let integral_theta := fun phi s t =>
    r <-? quad sci (fun theta => Ok (Omega theta phi s t))
            (f_of_Z np 0) (np_pi np) ;;
    Ok (fst r) in
  let integral_phi := fun s t =>
    r <-? quad sci (fun phi => integral_theta phi s t)
            (f_of_Z np 0) (f_mul np (f_of_Z np 2) (np_pi np)) ;;
    Ok (fst r) in
  let integral_s := fun t =>
    a <-? index I_1 0 ;;
    b <-? index I_1 1 ;;
    r <-? quad sci (fun s => integral_phi s t) a b ;;
    Ok (fst r) in
  c <-? index I_2 0 ;;
  d <-? index I_2 1 ;;
  quad sci (fun t => v <-? integral_s t ;; Ok (f_mul np norm_area v)) c d.

(** The same four quadratures with the field as a parameter:
    [area_Omega_S2] is this at its built-in field. *)
Definition nested_quadrature (field : float -> float -> float -> float -> float)
  (I_1 I_2 : list float) : outcome (float * float) :=
  let integral_theta := fun phi s t =>
    r <-? quad sci (fun theta => Ok (field theta phi s t))
            (f_of_Z np 0) (np_pi np) ;;
    Ok (fst r) in
  let integral_phi := fun s t =>
    r <-? quad sci (fun phi => integral_theta phi s t)
            (f_of_Z np 0) (f_mul np (f_of_Z np 2) (np_pi np)) ;;
    Ok (fst r) in
  let integral_s := fun t =>
    a <-? index I_1 0 ;;
    b <-? index I_1 1 ;;
    r <-? quad sci (fun s => integral_phi s t) a b ;;
    Ok (fst r) in
  c <-? index I_2 0 ;;
  d <-? index I_2 1 ;;
  quad sci (fun t => v <-? integral_s t ;; Ok (f_mul np norm_area v)) c d.

(** ** Descriptions of a run

    The definitions below are what the theorems compare the evaluators with:
    the log of the parses and differentiations every successful parse leads
    to, the bracket term, and the two ways a run ends. *)

Local Close Scope outcome_scope.

(** The error of the first string, in the order given, that does not parse. *)
Fixpoint first_parse_error (srcs : list string) : option exn :=
  match srcs with
  | [] => None
  | s :: rest =>
      match sympify sym s with
      | Raise e => Some e
      | Ok _ => first_parse_error rest
      end
  end.

Definition is_sympify (ev : event) : bool :=
  match ev with ESympify _ => true | _ => false end.

Definition is_symbolic_integration (ev : event) : bool :=
  match ev with EIntegrate _ _ _ _ => true | _ => false end.

Definition is_numerical_call (ev : event) : bool :=
  match ev with ELambdify _ _ | EDblquad _ _ _ _ _ => true | _ => false end.


(** [(df/dc1 * dh/dc2 - dh/dc1 * df/dc2) * tau] *)
Definition bracket (ff hh tau : expr) (c1 c2 : string) : expr :=
  e_mul sym
    (e_sub sym (e_mul sym (diff sym ff c1) (diff sym hh c2))
               (e_mul sym (diff sym hh c1) (diff sym ff c2)))
    tau.

(** The log once the four strings are parsed and the four partial derivatives
    are taken. *)
Definition prelude (tau rho function1 function2 : string) (ff hh : expr)
  (c1 c2 : string) : list event :=
  [ESympify tau; ESympify rho; ESympify function1; ESympify function2;
   EDiff ff c1; EDiff hh c2; EDiff hh c1; EDiff ff c2].

(** The exact end of a run: integrate [e] over [r1], the result over [r2], and
    apply [post] to what comes out. *)
Definition exact_run (pre : list event) (e : expr) (r1 r2 : string * expr * expr)
  (post : expr -> expr) : list event * outcome result :=
  let '(v1, lo1, hi1) := r1 in
  let '(v2, lo2, hi2) := r2 in
  match integrate sym e r1 with
  | Raise err => (pre ++ [EIntegrate e v1 lo1 hi1], Raise err)
  | Ok i1 =>
      (pre ++ [EIntegrate e v1 lo1 hi1; EIntegrate i1 v2 lo2 hi2],
       omap (fun i2 => Exact (post i2)) (integrate sym i1 r2))
  end.

(** The numerical end of a run: lambdify [e] over [vars] and hand the callable
    to [dblquad], first argument inner. *)
Definition numeric_run (pre : list event) (vars : list string) (e : expr)
  (a b : float) (gfun hfun : float -> float) : list event * outcome result :=
  let func := fun y x => lambdify sym vars e "numpy" [y; x] in
  (pre ++ [ELambdify vars e; EDblquad func a b gfun hfun],
   omap Numeric (dblquad sci func a b gfun hfun)).

(** The one-dimensional integrations a log performs, innermost first, each
    with its variable and its bounds as floats.  [dblquad] integrates the
    first argument of its callable between [gfun] and [hfun] (read here at the
    lower outer bound) and the second between [a] and [b]; the names are
    those of the preceding [lambdify]. *)
Fixpoint integrations (vars : list string) (log : list event)
  : list (string * float * float) :=
  match log with
  | [] => []
  | EIntegrate _ x lo hi :: rest =>
      (x, to_float sym lo, to_float sym hi) :: integrations vars rest
  | ELambdify vs _ :: rest => integrations vs rest
  | EDblquad _ a b gfun hfun :: rest =>
      (nth 0 vars EmptyString, gfun a, hfun a)
      :: (nth 1 vars EmptyString, a, b)
      :: integrations vars rest
  | _ :: rest => integrations vars rest
  end.

(** The negation of a result: of the expression, or of the approximation (the
    error estimate is a magnitude and stays). *)
Definition neg_result (r : result) : result :=
  match r with
  | Exact e => Exact (e_neg sym e)
  | Numeric (v, err) => Numeric (f_neg np v, err)
  end.

(** The quadrature that forgets the error estimates. *)
Definition forget_errors : SciPy np := {|
  quad := fun f a b => omap (fun r => (fst r, f_of_Z np 0)) (quad sci f a b);
  dblquad := fun f a b g h =>
    omap (fun r => (fst r, f_of_Z np 0)) (dblquad sci f a b g h)
|}.

(** ** Contracts of the collaborators *)

(** Numbers: the expressions built from integers and pi. *)
Inductive number : expr -> Prop :=
| number_int z : number (e_int sym z)
| number_pi : number (e_pi sym)
| number_add u v : number u -> number v -> number (e_add sym u v)
| number_mul u v : number u -> number v -> number (e_mul sym u v)
| number_sub u v : number u -> number v -> number (e_sub sym u v)
| number_neg u : number u -> number (e_neg sym u)
| number_pow u n : number u -> number (e_pow sym u n).

(** Numbers that are visibly not zero. *)
Inductive nonzero_number : expr -> Prop :=
| nonzero_int z : z <> 0%Z -> nonzero_number (e_int sym z)
| nonzero_pi : nonzero_number (e_pi sym)
| nonzero_mul u v :
    nonzero_number u -> nonzero_number v -> nonzero_number (e_mul sym u v)
| nonzero_pow u n : nonzero_number u -> nonzero_number (e_pow sym u n).

(** Negation commutes with what the evaluators do to the bracket. *)
Record NegationLaws : Prop := {
  sub_swap : forall a b, e_sub sym b a = e_neg sym (e_sub sym a b);
  mul_neg_l : forall u v, e_mul sym (e_neg sym u) v = e_neg sym (e_mul sym u v);
  mul_neg_r : forall c u, e_mul sym c (e_neg sym u) = e_neg sym (e_mul sym c u);
  integrate_neg : forall u rng,
    integrate sym (e_neg sym u) rng = omap (e_neg sym) (integrate sym u rng);
  lambdify_neg : forall vars u modules args,
    lambdify sym vars (e_neg sym u) modules args
    = omap (f_neg np) (lambdify sym vars u modules args);
  dblquad_neg : forall f g a b gfun hfun,
    (forall y x, g y x = omap (f_neg np) (f y x)) ->
    dblquad sci g a b gfun hfun
    = omap (fun r => (f_neg np (fst r), snd r)) (dblquad sci f a b gfun hfun)
}.

(** Expressions are a commutative ring in which integers multiply as
    integers, a symbol differentiates to one or zero, a number integrates to
    itself times the length of the interval, and the inverse of a nonzero
    number cancels it. *)
Record AlgebraLaws : Prop := {
  e_ring : ring_theory (e_int sym 0) (e_int sym 1) (e_add sym) (e_mul sym)
             (e_sub sym) (e_neg sym) eq;
  e_int_mul : forall a b,
    e_int sym (a * b) = e_mul sym (e_int sym a) (e_int sym b);
  e_pow_0 : forall u, e_pow sym u 0 = e_int sym 1;
  e_pow_succ : forall u n,
    e_pow sym u (N.succ n) = e_mul sym u (e_pow sym u n);
  diff_symbol_same : forall s, diff sym (e_symbol sym s) s = e_int sym 1;
  diff_symbol_other : forall s x,
    s <> x -> diff sym (e_symbol sym s) x = e_int sym 0;
  integrate_number : forall c x lo hi,
    number c ->
    integrate sym c (x, lo, hi) = Ok (e_mul sym c (e_sub sym hi lo));
  inverse_cancels : forall u,
    nonzero_number u -> e_mul sym (e_div sym (e_int sym 1) u) u = e_int sym 1
}.

(** The float of a symbolic number is the number computed in floats. *)
Record FloatLaws : Prop := {
  to_float_int : forall z, to_float sym (e_int sym z) = f_of_Z np z;
  to_float_pi : to_float sym (e_pi sym) = np_pi np;
  to_float_mul : forall u v,
    to_float sym (e_mul sym u v) = f_mul np (to_float sym u) (to_float sym v)
}.

End DensityAreas.

Arguments Exact {np sym} e.
Arguments Numeric {np sym} r.

(** ** A grammar of expression strings

    Integer literals, names, [pi], [sin(..)] and [cos(..)], the operators
    [+ - * /], powers [**] by a literal exponent, and parentheses: a
    fragment of what [sympify] reads, used by the exact collaborators
    only. *)

Module Syntax.

Inductive token : Type :=
| TNum (n : Z)
| TId (s : string)
| TPlus | TMinus | TStar | TSlash | TPow | TLParen | TRParen.

Inductive ast : Type :=
| ANum (z : Z)
| APi
| AVar (s : string)
| AAdd (a b : ast)
| ASub (a b : ast)
| AMul (a b : ast)
| ADiv (a b : ast)
| ANeg (a : ast)
| APow (a : ast) (n : N)
| ASin (a : ast)
| ACos (a : ast).

(** The token being read. *)
Inductive pending : Type :=
| PNothing
| PNumber (n : Z)
| PName (s : string).

Definition flush (p : pending) : list token :=
  match p with
  | PNothing => []
  | PNumber n => [TNum n]
  | PName s => [TId s]
  end.

Definition digit_of (c : Ascii.ascii) : option Z :=
  let n := Ascii.nat_of_ascii c in
  if andb (Nat.leb 48 n) (Nat.leb n 57) then Some (Z.of_nat (n - 48)) else None.

Definition is_letter (c : Ascii.ascii) : bool :=
  let n := Ascii.nat_of_ascii c in
  orb (orb (andb (Nat.leb 65 n) (Nat.leb n 90))
           (andb (Nat.leb 97 n) (Nat.leb n 122)))
      (Nat.eqb n 95).

Definition symbol_token (c : Ascii.ascii) : option token :=
  match c with
  | "+"%char => Some TPlus
  | "-"%char => Some TMinus
  | "*"%char => Some TStar
  | "/"%char => Some TSlash
  | "("%char => Some TLParen
  | ")"%char => Some TRParen
  | _ => None
  end.

Fixpoint lex (cs : list Ascii.ascii) (p : pending) : option (list token) :=
  match cs with
  | [] => Some (flush p)
  | c :: rest =>
      match digit_of c with
      | Some d =>
          match p with
          | PNothing => lex rest (PNumber d)
          | PNumber n => lex rest (PNumber (10 * n + d))
          | PName s => lex rest (PName (s ++ String c EmptyString))
          end
      | None =>
          if is_letter c then
            match p with
            | PNothing => lex rest (PName (String c EmptyString))
            | PName s => lex rest (PName (s ++ String c EmptyString))
            | PNumber _ => None
            end
          else if Ascii.eqb c " " then
            option_map (app (flush p)) (lex rest PNothing)
          else
            match c, rest with
            | "*"%char, "*"%char :: rest' =>
                option_map (fun ts => flush p ++ TPow :: ts) (lex rest' PNothing)
            | _, _ =>
                match symbol_token c with
                | Some t =>
                    option_map (fun ts => flush p ++ t :: ts) (lex rest PNothing)
                | None => None
                end
            end
      end
  end.

Definition tokenize (s : string) : option (list token) :=
  lex (list_ascii_of_string s) PNothing.

(** The nonterminal being parsed; the rest-levels carry the left operand. *)
Inductive level : Type :=
| LSum
| LSumRest (acc : ast)
| LTerm
| LTermRest (acc : ast)
| LUnary
| LAtom.

Definition atom_of_name (s : string) : ast :=
  if String.eqb s "pi" then APi else AVar s.

Definition apply_function (f : string) (a : ast) : option ast :=
  if String.eqb f "sin" then Some (ASin a)
  else if String.eqb f "cos" then Some (ACos a)
  else None.

Fixpoint parse_at (fuel : nat) (lvl : level) (ts : list token)
  : option (ast * list token) :=
  match fuel with
  | O => None
  | S k =>
      match lvl with
      | LSum =>
          match parse_at k LTerm ts with
          | Some (a, r) => parse_at k (LSumRest a) r
          | None => None
          end
      | LSumRest acc =>
          match ts with
          | TPlus :: r =>
              match parse_at k LTerm r with
              | Some (b, r') => parse_at k (LSumRest (AAdd acc b)) r'
              | None => None
              end
          | TMinus :: r =>
              match parse_at k LTerm r with
              | Some (b, r') => parse_at k (LSumRest (ASub acc b)) r'
              | None => None
              end
          | _ => Some (acc, ts)
          end
      | LTerm =>
          match parse_at k LUnary ts with
          | Some (a, r) => parse_at k (LTermRest a) r
          | None => None
          end
      | LTermRest acc =>
          match ts with
          | TStar :: r =>
              match parse_at k LUnary r with
              | Some (b, r') => parse_at k (LTermRest (AMul acc b)) r'
              | None => None
              end
          | TSlash :: r =>
              match parse_at k LUnary r with
              | Some (b, r') => parse_at k (LTermRest (ADiv acc b)) r'
              | None => None
              end
          | _ => Some (acc, ts)
          end
      | LUnary =>
          match ts with
          | TMinus :: r =>
              match parse_at k LUnary r with
              | Some (a, r') => Some (ANeg a, r')
              | None => None
              end
          | _ =>
              match parse_at k LAtom ts with
              | Some (a, TPow :: TNum n :: r) =>
                  if Z.leb 0 n then Some (APow a (Z.to_N n), r) else None
              | other => other
              end
          end
      | LAtom =>
          match ts with
          | TNum n :: r => Some (ANum n, r)
          | TId f :: TLParen :: r =>
              match parse_at k LSum r with
              | Some (a, TRParen :: r') =>
                  match apply_function f a with
                  | Some t => Some (t, r')
                  | None => None
                  end
              | _ => None
              end
          | TId s :: r => Some (atom_of_name s, r)
          | TLParen :: r =>
              match parse_at k LSum r with
              | Some (a, TRParen :: r') => Some (a, r')
              | _ => None
              end
          | _ => None
          end
      end
  end.

(** A string parses when it lexes and the whole of it is one sum. *)
Definition parse (s : string) : outcome ast :=
  match tokenize s with
  | None => Raise (ExpressionParseError s)
  | Some ts =>
      match parse_at (8 * (List.length ts + 1)) LSum ts with
      | Some (a, []) => Ok a
      | _ => Raise (ExpressionParseError s)
      end
  end.

End Syntax.

(** ** Exact collaborators over the reals

    Floats are real numbers, expressions are real functions of the values of
    the symbols, a derivative is the derivative and an integral is the
    increment of an antiderivative; a quadrature is exact and estimates its
    error as zero. *)

Module Ideal.

Import Syntax.

Local Open Scope R_scope.

Definition numpy : NumPy := {|
  float := R;
  f_of_Z := IZR;
  f_mul := Rmult;
  f_div := Rdiv;
  f_neg := Ropp;
  np_pi := PI;
  np_sin := sin;
  np_cos := cos
|}.

Definition env : Type := string -> R.

Definition rfun : Type := env -> R.

Definition upd (rho : env) (x : string) (v : R) : env :=
  fun y => if String.eqb y x then v else rho y.

Fixpoint denote (a : ast) : rfun :=
  fun rho =>
    match a with
    | ANum z => IZR z
    | APi => PI
    | AVar s => rho s
    | AAdd a b => denote a rho + denote b rho
    | ASub a b => denote a rho - denote b rho
    | AMul a b => denote a rho * denote b rho
    | ADiv a b => denote a rho / denote b rho
    | ANeg a => - denote a rho
    | APow a n => denote a rho ^ N.to_nat n
    | ASin a => sin (denote a rho)
    | ACos a => cos (denote a rho)
    end.

(** [e] as a function of the symbol [x] alone. *)
Definition section_of (e : rfun) (rho : env) (x : string) : R -> R :=
  fun v => e (upd rho x v).

(** [G] is an antiderivative of [g] on the whole line. *)
Definition primitive (g G : R -> R) : Prop :=
  forall v, derivable_pt_lim G v (g v).

Definition some_primitive (g : R -> R) : R -> R :=
  epsilon (inhabits (fun _ => 0)) (primitive g).

Definition derivative (e : rfun) (x : string) : rfun :=
  fun rho =>
    epsilon (inhabits 0)
      (fun l => derivable_pt_lim (section_of e rho x) (rho x) l).

Definition integral (e : rfun) (rng : string * rfun * rfun) : outcome rfun :=
  let '(x, lo, hi) := rng in
  if excluded_middle_informative
       (forall rho, exists G, primitive (section_of e rho x) G)
  then Ok (fun rho =>
             let G := some_primitive (section_of e rho x) in
             G (hi rho) - G (lo rho))
  else Raise IntegrationUnsupportedError.

(** The symbols named by [vars] take the values [args], the others zero. *)
Fixpoint bind_args (vars : list string) (args : list R) : env :=
  match vars, args with
  | x :: vars', v :: args' => upd (bind_args vars' args') x v
  | _, _ => fun _ => 0
  end.

Definition lambdified (vars : list string) (e : rfun) (modules : string)
  (args : list R) : outcome R :=
  Ok (e (bind_args vars args)).

Definition sympy : SymPy numpy :=
  Build_SymPy numpy
    rfun
    (fun s => omap denote (parse s))
    (fun s rho => rho s)
    derivative
    integral
    lambdified
    (fun z _ => IZR z)
    (fun _ => PI)
    (fun e rho => sin (e rho))
    (fun u v rho => u rho + v rho)
    (fun u v rho => u rho * v rho)
    (fun u v rho => u rho - v rho)
    (fun u rho => - u rho)
    (fun u v rho => u rho / v rho)
    (fun u n rho => u rho ^ N.to_nat n)
    (fun e => e (fun _ => 0)).

(** The values of an integrand, when it raises nowhere. *)
Definition values_of (f : R -> outcome R) (g : R -> R) : Prop :=
  forall x, f x = Ok (g x).

(** [f] has values with an antiderivative [G]. *)
Definition integrable (f : R -> outcome R) (G : R -> R) : Prop :=
  exists g, values_of f g /\ primitive g G.

Definition exact_quad (f : R -> outcome R) (a b : R) : outcome (R * R) :=
  if excluded_middle_informative (exists G, integrable f G)
  then let G := epsilon (inhabits (fun _ => 0)) (integrable f) in
       Ok (G b - G a, 0)
  else Raise QuadratureError.

Definition exact_dblquad (func : R -> R -> outcome R) (a b : R)
  (gfun hfun : R -> R) : outcome (R * R) :=
  exact_quad
    (fun x => omap fst (exact_quad (fun y => func y x) (gfun x) (hfun x)))
    a b.

Definition scipy : SciPy numpy :=
  Build_SciPy numpy exact_quad exact_dblquad.

End Ideal.

(** ** Further contracts *)

Section FurtherContracts.

Context {np : NumPy} (sym : SymPy np) (sci : SciPy np).

(** A number differentiates to zero. *)
Record ConstantLaws : Prop := {
  diff_number : forall c x, number sym c -> diff sym c x = e_int sym 0
}.

End FurtherContracts.

(** ** An algebra engine that cannot integrate

    The exact engine with every symbolic integration reported as
    unsupported. *)

Module Unsupported.

Definition sympy : SymPy Ideal.numpy :=
  Build_SymPy Ideal.numpy
    Ideal.rfun
    (sympify Ideal.sympy)
    (e_symbol Ideal.sympy)
    (diff Ideal.sympy)
    (fun _ _ => Raise IntegrationUnsupportedError)
    (lambdify Ideal.sympy)
    (e_int Ideal.sympy)
    (e_pi Ideal.sympy)
    (e_sin Ideal.sympy)
    (e_add Ideal.sympy)
    (e_mul Ideal.sympy)
    (e_sub Ideal.sympy)
    (e_neg Ideal.sympy)
    (e_div Ideal.sympy)
    (e_pow Ideal.sympy)
    (to_float Ideal.sympy).

End Unsupported.

(** ** The evaluators with their coordinates *)

Module Coordinates.

Import Ideal.

Local Open Scope string_scope.

(** The value of [e] is determined by the values of the symbols [vars]: no
    other symbol is free in it. *)
Definition depends_only_on (vars : list string) (e : rfun) : Prop :=
  forall rho rho' : env,
    (forall x, In x vars -> rho x = rho' x) -> e rho = e rho'.

(** Each evaluator on the exact collaborators, with the two coordinate
    symbols it declares. *)
Definition evaluators_with_coordinates
  : list ((string -> string -> string -> string -> option pyval
           -> M sympy (result sympy))
          * list string) :=
  [(PoissonWasserstein_R2 sympy scipy, ["x1"; "x2"]);
   (PoissonWasserstein_T2 sympy scipy, ["theta1"; "theta2"]);
   (PoissonWasserstein_S2 sympy scipy, ["theta"; "phi"])].

End Coordinates.

(** * Properties of the bracket evaluators *)

Section Evaluators.

Context {np : NumPy} (sym : SymPy np) (sci : SciPy np).

Local Open Scope string_scope.

Ltac run_evaluator :=
  unfold run, bind, sym_sympify, sym_diff, call;
  repeat match goal with
         | H : sympify sym _ = _ |- _ => rewrite H
         end;
  unfold numeric_run, exact_run, prelude, bracket, sym_lambdify,
    sym_integrate, scipy_dblquad, call, ret, omap, obind;
  cbn [app];
  try match goal with
      | |- context [py_eq_True ?v] => destruct (py_eq_True v)
      end;
  repeat match goal with
         | |- context [dblquad sci ?f ?a ?b ?g ?h] =>
             destruct (dblquad sci f a b g h)
         | |- context [integrate sym ?e ?r] => destruct (integrate sym e r)
         end;
  try reflexivity.

(** A run with four strings that parse: the prelude, then one of the two
    ends, chosen by [numerical == True]. *)
Lemma run_R2 tau rho function1 function2 numerical T Rh ff hh :
  sympify sym tau = Ok T -> sympify sym rho = Ok Rh ->
  sympify sym function1 = Ok ff -> sympify sym function2 = Ok hh ->
  let pre := prelude sym tau rho function1 function2 ff hh "x1" "x2" in
  let integrand := e_mul sym (bracket sym ff hh T "x1" "x2") Rh in
  run sym (PoissonWasserstein_R2 sym sci tau rho function1 function2 numerical)
  = if py_eq_True (arg_or_default numerical (PyBool false))
    then numeric_run sym sci pre ["x1"; "x2"] integrand
           (f_of_Z np 0) (f_of_Z np 1)
           (fun _ => f_of_Z np 0) (fun _ => f_of_Z np 1)
    else exact_run sym pre integrand
           ("x1", e_int sym 0, e_int sym 1) ("x2", e_int sym 0, e_int sym 1)
           (fun i => i).
Proof.
  intros HT HR Hf Hh pre integrand; subst pre integrand.
  unfold PoissonWasserstein_R2. run_evaluator.
Qed.

Lemma run_T2 tau rho function1 function2 numerical T Rh ff hh :
  sympify sym tau = Ok T -> sympify sym rho = Ok Rh ->
  sympify sym function1 = Ok ff -> sympify sym function2 = Ok hh ->
  let pre := prelude sym tau rho function1 function2 ff hh "theta1" "theta2" in
  let integrand := e_mul sym (bracket sym ff hh T "theta1" "theta2") Rh in
  run sym (PoissonWasserstein_T2 sym sci tau rho function1 function2 numerical)
  = if py_eq_True (arg_or_default numerical (PyBool false))
    then numeric_run sym sci pre ["theta1"; "theta2"]
           (e_mul sym (norm_T2 sym) integrand)
           (f_of_Z np 0) (to_float sym (two_sym_pi sym))
           (fun _ => f_of_Z np 0) (fun _ => to_float sym (two_sym_pi sym))
    else exact_run sym pre integrand
           ("theta1", e_int sym 0, two_sym_pi sym)
           ("theta2", e_int sym 0, two_sym_pi sym)
           (e_mul sym (norm_T2 sym)).
Proof.
  intros HT HR Hf Hh pre integrand; subst pre integrand.
  unfold PoissonWasserstein_T2. run_evaluator.
Qed.

Lemma run_S2 tau rho function1 function2 numerical T Rh ff hh :
  sympify sym tau = Ok T -> sympify sym rho = Ok Rh ->
  sympify sym function1 = Ok ff -> sympify sym function2 = Ok hh ->
  let pre := prelude sym tau rho function1 function2 ff hh "theta" "phi" in
  let integrand :=
    e_mul sym (e_mul sym (bracket sym ff hh T "theta" "phi") Rh)
      (e_sin sym (e_symbol sym "theta")) in
  run sym (PoissonWasserstein_S2 sym sci tau rho function1 function2 numerical)
  = if py_eq_True (arg_or_default numerical (PyBool false))
    then numeric_run sym sci pre ["theta"; "phi"]
           (e_mul sym (norm_S2 sym) integrand)
           (f_of_Z np 0) (f_mul np (f_of_Z np 2) (np_pi np))
           (fun _ => f_of_Z np 0) (fun _ => np_pi np)
    else exact_run sym pre integrand
           ("theta", e_int sym 0, e_pi sym)
           ("phi", e_int sym 0, two_sym_pi sym)
           (e_mul sym (norm_S2 sym)).
Proof.
  intros HT HR Hf Hh pre integrand; subst pre integrand.
  unfold PoissonWasserstein_S2. run_evaluator.
Qed.

(** A run with a string that does not parse stops at that string. *)
Lemma run_parse_error tau rho function1 function2 numerical e evaluate :
  In evaluate (evaluators sym sci) ->
  first_parse_error sym [tau; rho; function1; function2] = Some e ->
  exists n,
    run sym (evaluate tau rho function1 function2 numerical)
    = (firstn (S n) [ESympify sym tau; ESympify sym rho;
                     ESympify sym function1; ESympify sym function2],
       Raise e).
Proof.
  intros Hin Hfirst. cbn [first_parse_error] in Hfirst.
  assert (Hcases :
    sympify sym tau = Raise e
    \/ (exists T, sympify sym tau = Ok T) /\ sympify sym rho = Raise e
    \/ (exists T Rh, sympify sym tau = Ok T /\ sympify sym rho = Ok Rh)
       /\ sympify sym function1 = Raise e
    \/ (exists T Rh ff, sympify sym tau = Ok T /\ sympify sym rho = Ok Rh
                        /\ sympify sym function1 = Ok ff)
       /\ sympify sym function2 = Raise e).
  { destruct (sympify sym tau) as [T|].
    2:{ left. congruence. }
    destruct (sympify sym rho) as [Rh|].
    2:{ right; left. split; [eauto | congruence]. }
    destruct (sympify sym function1) as [ff|].
    2:{ right; right; left. split; [eauto | congruence]. }
    destruct (sympify sym function2) as [hh|]; [discriminate|].
    right; right; right. split; [eauto 6 | congruence]. }
  destruct Hcases as [H1 | [[[T HT] H2] | [[(T & Rh & HT & HR) H3]
                        | [(T & Rh & ff & HT & HR & Hf) H4]]]];
    [exists 0%nat | exists 1%nat | exists 2%nat | exists 3%nat];
    destruct Hin as [<- | [<- | [<- | []]]];
    unfold PoissonWasserstein_R2, PoissonWasserstein_T2, PoissonWasserstein_S2;
    run_evaluator.
Qed.

(** C9.  When one of the four strings does not parse, every evaluator raises
    the error of the first such string, in the order [tau], [rho],
    [function1], [function2], exactly as [sympify] raised it; the only
    collaborator calls made are parses (no differentiation, no symbolic
    integration, no lambdification, no quadrature), whatever [numerical]
    is. *)
Theorem parse_error_propagates tau rho function1 function2 numerical e evaluate :
  In evaluate (evaluators sym sci) ->
  first_parse_error sym [tau; rho; function1; function2] = Some e ->
  let r := run sym (evaluate tau rho function1 function2 numerical) in
  snd r = Raise e
  /\ forallb (is_sympify sym) (fst r) = true
  /\ existsb (is_symbolic_integration sym) (fst r) = false
  /\ existsb (is_numerical_call sym) (fst r) = false.
Proof.
  intros Hin Hfirst r; subst r.
  destruct (run_parse_error _ _ _ _ numerical _ _ Hin Hfirst) as [n ->].
  destruct n as [|[|[|[|n]]]]; cbn; auto.
Qed.


(** C4.  On the sphere, with four strings that parse, the factor
    [sin(theta)] is part of the integrand before anything is integrated or
    lambdified: nothing in the prelude integrates; the numerical branch
    lambdifies [1/(4*pi)] times that integrand; the exact branch integrates
    it over [theta] in [0, pi], then the result over [phi] in [0, 2*pi], and
    only then multiplies by [1/(4*pi)]. *)
Theorem sphere_measure_before_normalization_after
  tau rho function1 function2 numerical T Rh ff hh :
  sympify sym tau = Ok T -> sympify sym rho = Ok Rh ->
  sympify sym function1 = Ok ff -> sympify sym function2 = Ok hh ->
  let pre := prelude sym tau rho function1 function2 ff hh "theta" "phi" in
  let weighted :=
    e_mul sym (e_mul sym (bracket sym ff hh T "theta" "phi") Rh)
      (e_sin sym (e_symbol sym "theta")) in
  let r := run sym (PoissonWasserstein_S2 sym sci tau rho function1 function2
                      numerical) in
  existsb (is_symbolic_integration sym) pre = false
  /\ existsb (is_numerical_call sym) pre = false
  /\ (py_eq_True (arg_or_default numerical (PyBool false)) = true ->
      let func := fun y x =>
        lambdify sym ["theta"; "phi"] (e_mul sym (norm_S2 sym) weighted)
          "numpy" [y; x] in
      r = ((pre ++ [ELambdify sym ["theta"; "phi"]
                     (e_mul sym (norm_S2 sym) weighted);
                   EDblquad sym func (f_of_Z np 0)
                     (f_mul np (f_of_Z np 2) (np_pi np))
                     (fun _ => f_of_Z np 0) (fun _ => np_pi np)])%list,
           omap Numeric
             (dblquad sci func (f_of_Z np 0)
                (f_mul np (f_of_Z np 2) (np_pi np))
                (fun _ => f_of_Z np 0) (fun _ => np_pi np))))
  /\ (py_eq_True (arg_or_default numerical (PyBool false)) = false ->
      (forall err,
          integrate sym weighted ("theta", e_int sym 0, e_pi sym) = Raise err ->
          r = ((pre ++ [EIntegrate sym weighted "theta" (e_int sym 0)
                             (e_pi sym)])%list,
               Raise err))
      /\ (forall i1,
             integrate sym weighted ("theta", e_int sym 0, e_pi sym) = Ok i1 ->
             r = ((pre ++ [EIntegrate sym weighted "theta" (e_int sym 0)
                             (e_pi sym);
                           EIntegrate sym i1 "phi" (e_int sym 0)
                             (two_sym_pi sym)])%list,
                  omap (fun i2 => Exact (e_mul sym (norm_S2 sym) i2))
                    (integrate sym i1
                       ("phi", e_int sym 0, two_sym_pi sym))))).
Proof.
  intros HT HR Hf Hh pre weighted r; subst r.
  rewrite (run_S2 _ _ _ _ _ _ _ _ _ HT HR Hf Hh).
  fold pre weighted.
  split; [reflexivity|]. split; [reflexivity|].
  split; intros ->.
  - reflexivity.
  - unfold exact_run. split.
    + intros err ->. reflexivity.
    + intros i1 ->. reflexivity.
Qed.

(** C5.  On the sphere the two branches integrate over the same domain in the
    same order: [theta] innermost over [0, pi], then [phi] over [0, 2*pi].
    The numerical branch gives [dblquad] a callable whose first argument,
    the inner variable, is [theta], with constant inner bounds [0] and
    [np.pi] and outer bounds [0] and [2*np.pi]; these are the floats of the
    symbolic bounds of the exact branch. *)
Theorem sphere_branches_same_domain
  tau rho function1 function2 n_numerical n_exact T Rh ff hh i1 :
  FloatLaws sym ->
  sympify sym tau = Ok T -> sympify sym rho = Ok Rh ->
  sympify sym function1 = Ok ff -> sympify sym function2 = Ok hh ->
  py_eq_True (arg_or_default n_numerical (PyBool false)) = true ->
  py_eq_True (arg_or_default n_exact (PyBool false)) = false ->
  integrate sym
    (e_mul sym (e_mul sym (bracket sym ff hh T "theta" "phi") Rh)
       (e_sin sym (e_symbol sym "theta")))
    ("theta", e_int sym 0, e_pi sym) = Ok i1 ->
  let numerical_log :=
    fst (run sym (PoissonWasserstein_S2 sym sci tau rho function1 function2
                    n_numerical)) in
  let exact_log :=
    fst (run sym (PoissonWasserstein_S2 sym sci tau rho function1 function2
                    n_exact)) in
  let domain :=
    [("theta", f_of_Z np 0, np_pi np);
     ("phi", f_of_Z np 0, f_mul np (f_of_Z np 2) (np_pi np))] in
  integrations sym [] numerical_log = domain
  /\ integrations sym [] exact_log = domain
  /\ (exists e,
        last numerical_log (ESympify sym EmptyString)
        = EDblquad sym
            (fun theta phi => lambdify sym ["theta"; "phi"] e "numpy"
                                [theta; phi])
            (f_of_Z np 0) (f_mul np (f_of_Z np 2) (np_pi np))
            (fun _ => f_of_Z np 0) (fun _ => np_pi np))
  /\ filter (is_symbolic_integration sym) exact_log
     = [EIntegrate sym
          (e_mul sym (e_mul sym (bracket sym ff hh T "theta" "phi") Rh)
             (e_sin sym (e_symbol sym "theta")))
          "theta" (e_int sym 0) (e_pi sym);
        EIntegrate sym i1 "phi" (e_int sym 0) (two_sym_pi sym)].
Proof.
  intros [Hint Hpi Hmul] HT HR Hf Hh Hnum Hex Hi1 numerical_log exact_log domain.
  subst numerical_log exact_log domain.
  rewrite !(run_S2 _ _ _ _ _ _ _ _ _ HT HR Hf Hh), Hnum, Hex.
  unfold numeric_run, exact_run, two_sym_pi. rewrite Hi1. cbn.
  rewrite Hmul, !Hint, Hpi.
  repeat split. eexists. reflexivity.
Qed.

(** ** Antisymmetry *)

Section Antisymmetry.

Hypothesis laws : NegationLaws sym sci.

Lemma bracket_swap ff hh T c1 c2 :
  bracket sym hh ff T c1 c2 = e_neg sym (bracket sym ff hh T c1 c2).
Proof.
  unfold bracket.
  rewrite (sub_swap _ _ laws (e_mul sym (diff sym ff c1) (diff sym hh c2))).
  apply (mul_neg_l _ _ laws).
Qed.

Lemma exact_run_neg pre pre' u r1 r2 post :
  (forall i, post (e_neg sym i) = e_neg sym (post i)) ->
  snd (exact_run sym pre' (e_neg sym u) r1 r2 post)
  = omap (neg_result sym) (snd (exact_run sym pre u r1 r2 post)).
Proof.
  intros Hpost. destruct r1 as [[v1 lo1] hi1], r2 as [[v2 lo2] hi2].
  unfold exact_run. rewrite (integrate_neg _ _ laws).
  destruct (integrate sym u _) as [i1|err]; cbn; [|reflexivity].
  rewrite (integrate_neg _ _ laws).
  destruct (integrate sym i1 _) as [i2|err]; cbn; [|reflexivity].
  now rewrite Hpost.
Qed.

Lemma numeric_run_neg pre pre' vars u a b gfun hfun :
  snd (numeric_run sym sci pre' vars (e_neg sym u) a b gfun hfun)
  = omap (neg_result sym) (snd (numeric_run sym sci pre vars u a b gfun hfun)).
Proof.
  unfold numeric_run; cbn [snd].
  rewrite (dblquad_neg _ _ laws
             (fun y x => lambdify sym vars u "numpy" [y; x])).
  - destruct (dblquad sci _ _ _ _ _) as [[v err]|]; reflexivity.
  - intros y x. apply (lambdify_neg _ _ laws).
Qed.

(** C1.  For every evaluator and four strings that parse, exchanging
    [function1] and [function2] negates what the run yields, in either mode:
    the symbolic expression is negated, the numerical approximation is
    negated with its error estimate unchanged, and an error raised by the
    integration or the quadrature is the same error. *)
Theorem bracket_antisymmetric
  tau rho function1 function2 numerical T Rh ff hh evaluate :
  In evaluate (evaluators sym sci) ->
  sympify sym tau = Ok T -> sympify sym rho = Ok Rh ->
  sympify sym function1 = Ok ff -> sympify sym function2 = Ok hh ->
  snd (run sym (evaluate tau rho function2 function1 numerical))
  = omap (neg_result sym)
      (snd (run sym (evaluate tau rho function1 function2 numerical))).
Proof.
  intros Hin HT HR Hf Hh.
  destruct Hin as [<- | [<- | [<- | []]]].
  - rewrite (run_R2 _ _ _ _ _ _ _ _ _ HT HR Hh Hf),
      (run_R2 _ _ _ _ _ _ _ _ _ HT HR Hf Hh).
    rewrite bracket_swap, (mul_neg_l _ _ laws).
    destruct (py_eq_True _).
    + apply numeric_run_neg.
    + now apply exact_run_neg.
  - rewrite (run_T2 _ _ _ _ _ _ _ _ _ HT HR Hh Hf),
      (run_T2 _ _ _ _ _ _ _ _ _ HT HR Hf Hh).
    rewrite bracket_swap, (mul_neg_l _ _ laws).
    destruct (py_eq_True _).
    + rewrite (mul_neg_r _ _ laws). apply numeric_run_neg.
    + apply exact_run_neg. intros i. apply (mul_neg_r _ _ laws).
  - rewrite (run_S2 _ _ _ _ _ _ _ _ _ HT HR Hh Hf),
      (run_S2 _ _ _ _ _ _ _ _ _ HT HR Hf Hh).
    rewrite bracket_swap, !(mul_neg_l _ _ laws).
    destruct (py_eq_True _).
    + rewrite (mul_neg_r _ _ laws). apply numeric_run_neg.
    + apply exact_run_neg. intros i. apply (mul_neg_r _ _ laws).
Qed.

End Antisymmetry.

(** ** The square and the torus with coordinate functions *)

Section Scenarios.

Hypothesis laws : AlgebraLaws sym.

Add Ring expr_ring : (e_ring sym laws).

(** The bracket of the two coordinate functions, with unit factor and unit
    density, is a number equal to one. *)
Lemma coordinate_integrand c1 c2 :
  c1 <> c2 ->
  let u := e_mul sym
             (bracket sym (e_symbol sym c1) (e_symbol sym c2) (e_int sym 1)
                c1 c2)
             (e_int sym 1) in
  number sym u /\ u = e_int sym 1.
Proof.
  intros Hne u; subst u. unfold bracket.
  rewrite !(diff_symbol_same sym laws).
  rewrite (diff_symbol_other sym laws c2 c1) by congruence.
  rewrite (diff_symbol_other sym laws c1 c2) by congruence.
  split.
  - repeat constructor.
  - ring.
Qed.

(** C2.  On the square, [tau = "1"], [rho = "1"], [function1 = "x1"] and
    [function2 = "x2"] in the exact mode (the default, or any flag not equal
    to [True]) yield the symbolic expression [1], for every algebra engine
    that reads the literal and the two names as such and obeys the laws of
    [AlgebraLaws]. *)
Theorem square_scenario numerical :
  sympify sym "1" = Ok (e_int sym 1) ->
  sympify sym "x1" = Ok (e_symbol sym "x1") ->
  sympify sym "x2" = Ok (e_symbol sym "x2") ->
  py_eq_True (arg_or_default numerical (PyBool false)) = false ->
  snd (run sym (PoissonWasserstein_R2 sym sci "1" "1" "x1" "x2" numerical))
  = Ok (Exact (e_int sym 1)).
Proof.
  intros H1 Hx1 Hx2 Hflag.
  rewrite (run_R2 _ _ _ _ _ _ _ _ _ H1 H1 Hx1 Hx2), Hflag.
  destruct (coordinate_integrand "x1" "x2") as [Hnum Hone]; [discriminate|].
  unfold exact_run.
  rewrite (integrate_number sym laws) by exact Hnum.
  cbn [omap obind snd].
  rewrite (integrate_number sym laws)
    by (apply number_mul; [exact Hnum | repeat constructor]).
  cbn. rewrite Hone. do 2 f_equal. ring.
Qed.

(** C3.  On the torus, [tau = "1"], [rho = "1"], [function1 = "theta1"] and
    [function2 = "theta2"] in the exact mode yield the symbolic expression
    [1]: the double integral over [0, 2*pi] x [0, 2*pi] is [(2*pi)**2] and
    the factor [1/(4*pi**2)] cancels it, for every algebra engine that reads
    the literal and the two names as such and obeys the laws of
    [AlgebraLaws]. *)
Theorem torus_scenario numerical :
  sympify sym "1" = Ok (e_int sym 1) ->
  sympify sym "theta1" = Ok (e_symbol sym "theta1") ->
  sympify sym "theta2" = Ok (e_symbol sym "theta2") ->
  py_eq_True (arg_or_default numerical (PyBool false)) = false ->
  let r := run sym (PoissonWasserstein_T2 sym sci "1" "1" "theta1" "theta2"
                      numerical) in
  snd r = Ok (Exact (e_int sym 1))
  /\ (exists i1 i2,
        filter (is_symbolic_integration sym) (fst r)
        = [EIntegrate sym i1 "theta1" (e_int sym 0) (two_sym_pi sym);
           EIntegrate sym i2 "theta2" (e_int sym 0) (two_sym_pi sym)]
        /\ integrate sym i2 ("theta2", e_int sym 0, two_sym_pi sym)
           = Ok (e_mul sym (two_sym_pi sym) (two_sym_pi sym))
        /\ e_mul sym (norm_T2 sym) (e_mul sym (two_sym_pi sym) (two_sym_pi sym))
           = e_int sym 1).
Proof.
  intros H1 Hx1 Hx2 Hflag r; subst r.
  rewrite (run_T2 _ _ _ _ _ _ _ _ _ H1 H1 Hx1 Hx2), Hflag.
  destruct (coordinate_integrand "theta1" "theta2") as [Hnum Hone];
    [discriminate|].
  assert (Hnum2 : number sym (e_sub sym (two_sym_pi sym) (e_int sym 0)))
    by (unfold two_sym_pi; repeat constructor).
  assert (Hsquare : e_mul sym (two_sym_pi sym) (two_sym_pi sym)
                    = e_mul sym (e_int sym 4) (e_pow sym (e_pi sym) 2)).
  { unfold two_sym_pi.
    change 2%N with (N.succ (N.succ 0)).
    rewrite !(e_pow_succ sym laws), (e_pow_0 sym laws).
    change 4%Z with (2 * 2)%Z. rewrite (e_int_mul sym laws). ring. }
  assert (Hcancel : e_mul sym (norm_T2 sym)
                      (e_mul sym (two_sym_pi sym) (two_sym_pi sym))
                    = e_int sym 1).
  { rewrite Hsquare. unfold norm_T2. apply (inverse_cancels sym laws).
    repeat constructor. discriminate. }
  assert (Hint2 : forall u, u = e_int sym 1 ->
            e_mul sym (e_mul sym u (e_sub sym (two_sym_pi sym) (e_int sym 0)))
              (e_sub sym (two_sym_pi sym) (e_int sym 0))
            = e_mul sym (two_sym_pi sym) (two_sym_pi sym)).
  { intros u ->. ring. }
  unfold exact_run.
  rewrite (integrate_number sym laws) by exact Hnum.
  cbn [omap obind snd fst].
  rewrite (integrate_number sym laws) by (apply number_mul; assumption).
  cbn [omap obind snd fst]. rewrite (Hint2 _ Hone). split.
  - now rewrite Hcancel.
  - do 2 eexists. split; [reflexivity|]. split; [|exact Hcancel].
    rewrite (integrate_number sym laws) by (apply number_mul; assumption).
    now rewrite (Hint2 _ Hone).
Qed.

End Scenarios.

End Evaluators.

(** * Properties of the area integrator *)

Section Area.

Context {np : NumPy} (sci : SciPy np).

Local Open Scope outcome_scope.

(** Taking the value of a quadrature does not look at its error estimate. *)
Lemma value_forgets_error {B} f a b (k : float np -> outcome B) :
  (r <-? quad (forget_errors sci) f a b ;; k (fst r))
  = (r <-? quad sci f a b ;; k (fst r)).
Proof.
  cbn. unfold omap, obind. destruct (quad sci f a b); reflexivity.
Qed.

Lemma obind_assoc {B C D} (c : outcome B) (k : B -> outcome C)
  (k' : C -> outcome D) :
  (y <-? (x <-? c ;; k x) ;; k' y) = (x <-? c ;; y <-? k x ;; k' y).
Proof. destruct c; reflexivity. Qed.

(** C6.  [area_Omega_S2] is four nested one-dimensional quadratures: [theta]
    over [0, pi] innermost, then [phi] over [0, 2*pi], then [s] over
    [I_1[0], I_1[1]], then [t] over [I_2[0], I_2[1]] outermost, with the
    factor [1/(4*pi)] in the outermost integrand.  What it returns is the
    pair of the outermost quadrature; the three inner quadratures can be
    replaced by ones whose error estimates are forgotten without changing
    the result. *)
Theorem area_nests_four_quadratures
  {A : Type} (Omega : A) (a b c d : float np) (more1 more2 : list (float np)) :
  let inner := forget_errors sci in
  area_Omega_S2 sci Omega (a :: b :: more1) (c :: d :: more2)
  = quad sci
      (fun t =>
         over_s <-? quad inner
           (fun s =>
              over_phi <-? quad inner
                (fun phi =>
                   over_theta <-? quad inner
                     (fun theta =>
                        Ok (f_mul np (np_sin np theta) (np_cos np phi)))
                     (f_of_Z np 0) (np_pi np) ;;
                   Ok (fst over_theta))
                (f_of_Z np 0) (f_mul np (f_of_Z np 2) (np_pi np)) ;;
              Ok (fst over_phi))
           a b ;;
         Ok (f_mul np (f_div np (f_of_Z np 1) (f_mul np (f_of_Z np 4) (np_pi np)))
               (fst over_s)))
      c d.
Proof.
  intros inner; subst inner.
  unfold area_Omega_S2, index, norm_area; cbn [nth_error obind].
  f_equal. apply functional_extensionality; intros t.
  rewrite obind_assoc; cbn [obind].
  rewrite (value_forgets_error _ a b (fun v => Ok (f_mul np _ v))).
  do 2 f_equal. apply functional_extensionality; intros s.
  rewrite (value_forgets_error _ _ _ (fun v => Ok v)).
  do 2 f_equal. apply functional_extensionality; intros phi.
  now rewrite (value_forgets_error _ _ _ (fun v => Ok v)).
Qed.

Lemma area_is_nested_quadrature {A : Type} (Omega : A) I_1 I_2 :
  area_Omega_S2 sci Omega I_1 I_2
  = nested_quadrature sci
      (fun theta phi s t => f_mul np (np_sin np theta) (np_cos np phi)) I_1 I_2.
Proof. reflexivity. Qed.

(** C8.  The result of [area_Omega_S2] does not depend on what is passed for
    [Omega]. *)
Theorem area_ignores_Omega
  {A B : Type} (g1 : A) (g2 : B) (I_1 I_2 : list (float np)) :
  area_Omega_S2 sci g1 I_1 I_2 = area_Omega_S2 sci g2 I_1 I_2.
Proof. reflexivity. Qed.

End Area.

(** * The exact collaborators obey the contracts *)

Module IdealFacts.

Import Syntax Ideal.

Local Open Scope R_scope.

(** Two antiderivatives of one function have the same increments. *)
Lemma primitive_increment g G1 G2 a b :
  primitive g G1 -> primitive g G2 -> G1 b - G1 a = G2 b - G2 a.
Proof.
  intros H1 H2.
  assert (Hlim : forall x, derivable_pt_lim (G1 - G2)%F x 0).
  { intros x. replace 0 with (g x - g x) by ring.
    apply derivable_pt_lim_minus; [apply H1 | apply H2]. }
  pose (pr := fun x => exist (fun l => derivable_pt_lim (G1 - G2)%F x l) 0
                         (Hlim x) : derivable_pt (G1 - G2)%F x).
  assert (Hconst : constant (G1 - G2)%F).
  { apply (null_derivative_1 _ pr). intros x. reflexivity. }
  specialize (Hconst a b). unfold minus_fct in Hconst. lra.
Qed.

Lemma some_primitive_spec g G :
  primitive g G -> primitive g (some_primitive g).
Proof.
  intros H. unfold some_primitive. apply epsilon_spec. now exists G.
Qed.

Lemma some_primitive_increment g G a b :
  primitive g G -> some_primitive g b - some_primitive g a = G b - G a.
Proof.
  intros H. apply (primitive_increment g); [|exact H].
  exact (some_primitive_spec g G H).
Qed.

(** An exact quadrature of values with a known antiderivative. *)
Lemma exact_quad_eval f g G a b :
  values_of f g -> primitive g G -> exact_quad f a b = Ok (G b - G a, 0).
Proof.
  intros Hval Hprim. unfold exact_quad.
  destruct (excluded_middle_informative _) as [Hex | Hno].
  - assert (Hspec := epsilon_spec (inhabits (fun _ : R => 0)) (integrable f) Hex).
    destruct Hspec as (g' & Hval' & Hprim').
    assert (Hg : primitive g (epsilon (inhabits (fun _ : R => 0)) (integrable f))).
    { intros v. specialize (Hprim' v).
      assert (E : g' v = g v) by (specialize (Hval v); specialize (Hval' v); congruence).
      now rewrite <- E. }
    now rewrite (primitive_increment g _ G a b Hg Hprim).
  - exfalso. apply Hno. exists G, g. now split.
Qed.

Lemma exact_quad_raise f a b :
  ~ (exists G, integrable f G) -> exact_quad f a b = Raise QuadratureError.
Proof.
  intros Hno. unfold exact_quad.
  destruct (excluded_middle_informative _); [contradiction | reflexivity].
Qed.

Lemma integrable_neg f G :
  integrable f G -> integrable (fun x => omap Ropp (f x)) (fun x => - G x).
Proof.
  intros (g & Hval & Hprim). exists (fun x => - g x). split.
  - intros x. now rewrite (Hval x).
  - intros v. apply (derivable_pt_lim_opp G v (g v)), Hprim.
Qed.

Lemma exact_quad_neg f a b :
  exact_quad (fun x => omap Ropp (f x)) a b
  = omap (fun r => (- fst r, snd r)) (exact_quad f a b).
Proof.
  destruct (excluded_middle_informative (exists G, integrable f G))
    as [[G HG] | Hno].
  - destruct (integrable_neg f G HG) as (g' & Hval' & Hprim').
    destruct HG as (g & Hval & Hprim).
    rewrite (exact_quad_eval _ _ _ a b Hval' Hprim').
    rewrite (exact_quad_eval _ _ _ a b Hval Hprim).
    cbn. do 2 f_equal. ring.
  - rewrite (exact_quad_raise f a b Hno).
    rewrite exact_quad_raise; [reflexivity|].
    intros [G HG]. apply Hno.
    exists (fun x => - G x).
    destruct (integrable_neg _ G HG) as (g & Hval & Hprim).
    exists g. split; [|exact Hprim].
    intros x. specialize (Hval x). cbv beta in Hval.
    destruct (f x) as [v|e]; cbn in Hval.
    + injection Hval as E. f_equal. lra.
    + discriminate.
Qed.

Lemma exact_dblquad_neg f g a b gfun hfun :
  (forall y x, g y x = omap Ropp (f y x)) ->
  exact_dblquad g a b gfun hfun
  = omap (fun r => (- fst r, snd r)) (exact_dblquad f a b gfun hfun).
Proof.
  intros Hg. unfold exact_dblquad.
  rewrite <- exact_quad_neg. f_equal.
  apply functional_extensionality; intros x.
  replace (fun y => g y x) with (fun y => omap Ropp (f y x))
    by (apply functional_extensionality; intros y; now rewrite Hg).
  rewrite exact_quad_neg.
  destruct (exact_quad _ _ _) as [[v err]|]; reflexivity.
Qed.

(** Symbolic integration. *)
Lemma integral_eval e x lo hi (G : env -> R -> R) :
  (forall rho, primitive (section_of e rho x) (G rho)) ->
  integral e (x, lo, hi) = Ok (fun rho => G rho (hi rho) - G rho (lo rho)).
Proof.
  intros HG. unfold integral.
  destruct (excluded_middle_informative _) as [_ | Hno].
  - f_equal. apply functional_extensionality; intros rho.
    apply some_primitive_increment, HG.
  - exfalso. apply Hno. intros rho. exists (G rho). apply HG.
Qed.

Lemma integral_neg u rng :
  integral (fun rho => - u rho) rng
  = omap (fun i rho => - i rho) (integral u rng).
Proof.
  destruct rng as [[x lo] hi].
  assert (Hopp : forall rho G,
             primitive (section_of u rho x) G ->
             primitive (section_of (fun r => - u r) rho x) (fun v => - G v)).
  { intros rho G HG v. apply (derivable_pt_lim_opp G v _ (HG v)). }
  destruct (excluded_middle_informative
              (forall rho, exists G, primitive (section_of u rho x) G))
    as [Hex | Hno].
  - assert (HG : forall rho, primitive (section_of u rho x)
                               (some_primitive (section_of u rho x))).
    { intros rho. destruct (Hex rho) as [G HG].
      exact (some_primitive_spec _ G HG). }
    rewrite (integral_eval u x lo hi _ HG).
    rewrite (integral_eval _ x lo hi _ (fun rho => Hopp rho _ (HG rho))).
    cbn. f_equal. apply functional_extensionality; intros rho. ring.
  - unfold integral.
    destruct (excluded_middle_informative _) as [Hex' | _].
    + exfalso. apply Hno. intros rho. destruct (Hex' rho) as [G HG].
      exists (fun v => - G v). intros v.
      replace (section_of u rho x v)
        with (- section_of (fun r => - u r) rho x v)
        by (unfold section_of; ring).
      apply (derivable_pt_lim_opp G v _ (HG v)).
    + destruct (excluded_middle_informative _) as [Hex | _];
        [contradiction | reflexivity].
Qed.

Theorem negation_laws : NegationLaws sympy scipy.
Proof.
  constructor.
  - intros a b. apply functional_extensionality; intros rho. cbn. ring.
  - intros u v. apply functional_extensionality; intros rho. cbn. ring.
  - intros c u. apply functional_extensionality; intros rho. cbn. ring.
  - intros u rng. apply integral_neg.
  - reflexivity.
  - intros f g a b gfun hfun Hg. now apply exact_dblquad_neg.
Qed.

(** Differentiation. *)
Lemma derivative_eval e x rho l :
  derivable_pt_lim (section_of e rho x) (rho x) l -> derivative e x rho = l.
Proof.
  intros H. unfold derivative.
  apply (uniqueness_limite (section_of e rho x) (rho x)); [|exact H].
  apply epsilon_spec. now exists l.
Qed.

Lemma upd_same rho x v : upd rho x v x = v.
Proof. unfold upd. now rewrite String.eqb_refl. Qed.

Lemma upd_other rho x y v : y <> x -> upd rho x v y = rho y.
Proof.
  intros H. unfold upd. destruct (String.eqb_spec y x); [contradiction|reflexivity].
Qed.

(** A number does not depend on the values of the symbols. *)
Lemma number_constant c :
  number sympy c -> forall rho rho', c rho = c rho'.
Proof.
  induction 1; intros rho rho'; cbn; try reflexivity;
    repeat match goal with
           | IH : forall r r', ?u r = ?u r' |- _ =>
               rewrite (IH rho rho'); clear IH
           end; reflexivity.
Qed.

Lemma nonzero_number_nonzero u :
  nonzero_number sympy u -> forall rho, u rho <> 0.
Proof.
  induction 1; intros rho; cbn.
  - now apply not_0_IZR.
  - apply PI_neq0.
  - apply Rmult_integral_contrapositive_currified; auto.
  - apply pow_nonzero; auto.
Qed.

Theorem algebra_laws : AlgebraLaws sympy.
Proof.
  constructor.
  - constructor; intros; apply functional_extensionality; intros rho; cbn; ring.
  - intros a b. apply functional_extensionality; intros rho. cbn.
    apply mult_IZR.
  - intros u. apply functional_extensionality; intros rho. reflexivity.
  - intros u n. apply functional_extensionality; intros rho. cbn.
    now rewrite N2Nat.inj_succ.
  - intros s. apply functional_extensionality; intros rho. cbn.
    apply derivative_eval.
    replace (section_of (fun r => r s) rho s) with (id : R -> R)
      by (apply functional_extensionality; intros v; unfold section_of;
          now rewrite upd_same).
    apply derivable_pt_lim_id.
  - intros s x Hne. apply functional_extensionality; intros rho. cbn.
    apply derivative_eval.
    replace (section_of (fun r => r s) rho x) with (fct_cte (rho s))
      by (apply functional_extensionality; intros v; unfold section_of;
          now rewrite upd_other).
    apply derivable_pt_lim_const.
  - intros c x lo hi Hc.
    change (integral c (x, lo, hi)
            = Ok (fun rho => c rho * (hi rho - lo rho))).
    etransitivity;
      [apply (integral_eval c x lo hi (fun rho v => c rho * v))|].
    + intros rho v. unfold section_of.
      rewrite (number_constant c Hc (upd rho x v) rho).
      assert (H := derivable_pt_lim_scal id (c rho) v 1 (derivable_pt_lim_id v)).
      rewrite Rmult_1_r in H. exact H.
    + f_equal. apply functional_extensionality; intros rho. ring.
  - intros u Hu. apply functional_extensionality; intros rho. cbn.
    field. now apply nonzero_number_nonzero.
Qed.

Theorem float_laws : FloatLaws sympy.
Proof. constructor; reflexivity. Qed.

(** ** The area integrator with exact quadrature *)

Lemma exact_quad_const k a b :
  exact_quad (fun _ => Ok k) a b = Ok (k * (b - a), 0).
Proof.
  rewrite (exact_quad_eval _ (fun _ => k) (fun v => k * v) a b).
  - do 2 f_equal. ring.
  - intros x. reflexivity.
  - intros v.
    assert (H := derivable_pt_lim_scal id k v 1 (derivable_pt_lim_id v)).
    rewrite Rmult_1_r in H. exact H.
Qed.

(** The integral of [sin(theta) * cos(phi)] over [theta] in [0, pi]. *)
Lemma exact_quad_over_theta phi :
  exact_quad (fun theta => Ok (sin theta * cos phi)) 0 PI = Ok (2 * cos phi, 0).
Proof.
  rewrite (exact_quad_eval _ (fun theta => sin theta * cos phi)
             (fun theta => - cos phi * cos theta) 0 PI).
  - rewrite cos_PI, cos_0. do 2 f_equal. ring.
  - intros x. reflexivity.
  - intros v.
    assert (H := derivable_pt_lim_scal cos (- cos phi) v (- sin v)
                   (derivable_pt_lim_cos v)).
    replace (- cos phi * - sin v) with (sin v * cos phi) in H by ring.
    exact H.
Qed.

(** The integral of [2 * cos(phi)] over [phi] in [0, 2*pi]. *)
Lemma exact_quad_over_phi :
  exact_quad (fun phi => Ok (2 * cos phi)) 0 (2 * PI) = Ok (0, 0).
Proof.
  rewrite (exact_quad_eval _ (fun phi => 2 * cos phi)
             (fun phi => 2 * sin phi) 0 (2 * PI)).
  - rewrite sin_2PI, sin_0. do 2 f_equal. ring.
  - intros x. reflexivity.
  - intros v.
    exact (derivable_pt_lim_scal sin 2 v (cos v) (derivable_pt_lim_sin v)).
Qed.

(** With exact quadrature the area is zero on every pair of intervals: the
    built-in field integrates to zero over the angles. *)
Lemma area_exact {A : Type} (Omega : A) a b c d more1 more2 :
  area_Omega_S2 scipy Omega (a :: b :: more1) (c :: d :: more2) = Ok (0, 0).
Proof.
  unfold area_Omega_S2, index, norm_area; cbn [nth_error obind].
  change (quad scipy) with exact_quad.
  cbn [float f_of_Z f_mul f_div np_pi np_sin np_cos numpy].
  assert (Hphi : forall s t : R,
             (fun phi : R =>
                r <-? exact_quad (fun theta => Ok (sin theta * cos phi)) 0 PI ;;
                Ok (fst r))%outcome
             = (fun phi => Ok (2 * cos phi))).
  { intros _ _. apply functional_extensionality; intros phi.
    now rewrite exact_quad_over_theta. }
  assert (Hs : forall t : R,
             (fun s : R =>
                r <-? exact_quad
                        (fun phi : R =>
                           r <-? exact_quad
                                   (fun theta => Ok (sin theta * cos phi)) 0 PI ;;
                           Ok (fst r)) 0 (2 * PI) ;;
                Ok (fst r))%outcome
             = (fun _ => Ok 0)).
  { intros t. apply functional_extensionality; intros s.
    now rewrite (Hphi s t), exact_quad_over_phi. }
  match goal with
  | |- exact_quad ?f c d = _ =>
      replace f with (fun _ : R => Ok (1 / (4 * PI) * 0) : outcome R)
  end.
  - rewrite exact_quad_const. do 2 f_equal. ring.
  - apply functional_extensionality; intros t.
    rewrite (Hs t), exact_quad_const. cbn. do 2 f_equal. ring.
Qed.

(** Were the constant field [1] integrated instead, the same four
    quadratures on [I_1 = [0, pi]] and [I_2 = [0, 2*pi]] would give [pi^3]. *)
Lemma nested_quadrature_constant_field :
  nested_quadrature scipy (fun _ _ _ _ => 1) [0; PI] [0; 2 * PI]
  = Ok (PI ^ 3, 0).
Proof.
  unfold nested_quadrature, index, norm_area; cbn [nth_error obind].
  change (quad scipy) with exact_quad.
  cbn [float f_of_Z f_mul f_div np_pi np_sin np_cos numpy].
  assert (Hphi : (fun phi : R =>
                    r <-? exact_quad (fun _ => Ok 1) 0 PI ;; Ok (fst r))%outcome
                 = (fun _ => Ok (1 * (PI - 0)))).
  { apply functional_extensionality; intros phi.
    now rewrite exact_quad_const. }
  rewrite Hphi.
  assert (Hs : (fun s : R =>
                  r <-? exact_quad (fun _ => Ok (1 * (PI - 0))) 0 (2 * PI) ;;
                  Ok (fst r))%outcome
               = (fun _ => Ok (1 * (PI - 0) * (2 * PI - 0)))).
  { apply functional_extensionality; intros s.
    now rewrite exact_quad_const. }
  rewrite Hs.
  match goal with
  | |- exact_quad ?f _ _ = _ =>
      replace f with (fun _ : R => Ok (1 / (4 * PI) * (2 * PI ^ 3)) : outcome R)
  end.
  - rewrite exact_quad_const. do 2 f_equal. field. apply PI_neq0.
  - apply functional_extensionality; intros t.
    rewrite exact_quad_const. cbn [obind fst]. do 2 f_equal. ring.
Qed.

End IdealFacts.

(** * The module on the exact collaborators *)

Import Syntax Ideal IdealFacts.

Local Open Scope string_scope.

Lemma sympify_parse s a : parse s = Ok a -> sympify sympy s = Ok (denote a).
Proof.
  intros H. change (omap denote (parse s) = Ok (denote a)). now rewrite H.
Qed.

Lemma parse_one : parse "1" = Ok (ANum 1).
Proof. vm_compute. reflexivity. Qed.

Lemma parse_name_x1 : parse "x1" = Ok (AVar "x1").
Proof. vm_compute. reflexivity. Qed.

Lemma parse_name_x2 : parse "x2" = Ok (AVar "x2").
Proof. vm_compute. reflexivity. Qed.

Lemma parse_name_theta1 : parse "theta1" = Ok (AVar "theta1").
Proof. vm_compute. reflexivity. Qed.

Lemma parse_name_theta2 : parse "theta2" = Ok (AVar "theta2").
Proof. vm_compute. reflexivity. Qed.

Lemma parse_name_theta : parse "theta" = Ok (AVar "theta").
Proof. vm_compute. reflexivity. Qed.

Lemma parse_name_phi : parse "phi" = Ok (AVar "phi").
Proof. vm_compute. reflexivity. Qed.

Lemma parse_product : parse "x1*x2" = Ok (AMul (AVar "x1") (AVar "x2")).
Proof. vm_compute. reflexivity. Qed.

Lemma parse_dangling : parse "x1 +" = Raise (ExpressionParseError "x1 +").
Proof. vm_compute. reflexivity. Qed.

(** On the sphere with coordinate functions the first integration, over
    [theta], succeeds. *)
Lemma sphere_first_integration :
  exists i1,
    integrate sympy
      (e_mul sympy
         (e_mul sympy
            (bracket sympy (e_symbol sympy "theta") (e_symbol sympy "phi")
               (e_int sympy 1) "theta" "phi")
            (e_int sympy 1))
         (e_sin sympy (e_symbol sympy "theta")))
      ("theta", e_int sympy 0, e_pi sympy) = Ok i1.
Proof.
  unfold bracket.
  rewrite !(diff_symbol_same sympy algebra_laws).
  rewrite (diff_symbol_other sympy algebra_laws "phi" "theta") by discriminate.
  rewrite (diff_symbol_other sympy algebra_laws "theta" "phi") by discriminate.
  eexists.
  apply (integral_eval _ "theta" _ _
           (fun _ v => ((1 * 1 - 0 * 0) * 1 * 1 * - cos v)%R)).
  intros rho v. unfold section_of. cbn.
  assert (H := derivable_pt_lim_scal cos (- ((1 * 1 - 0 * 0) * 1 * 1))%R v
                 (- sin v)%R (derivable_pt_lim_cos v)).
  replace (- ((1 * 1 - 0 * 0) * 1 * 1) * - sin v)%R
    with ((1 * 1 - 0 * 0) * 1 * 1 * sin v)%R in H by ring.
  replace (fun v0 : R => ((1 * 1 - 0 * 0) * 1 * 1 * - cos v0)%R)
    with (mult_real_fct (- ((1 * 1 - 0 * 0) * 1 * 1))%R cos).
  - exact H.
  - apply functional_extensionality; intros w. unfold mult_real_fct. ring.
Qed.

(** C7 (amended).  With exact quadrature, [I_1 = [0, pi]] and
    [I_2 = [0, 2*pi]], [area_Omega_S2] returns the pair [(0, 0)] whatever is
    passed for the field, a constant field included: what is integrated is
    the built-in field [sin(theta) * cos(phi)], whose integral over the
    angles is zero. *)
Theorem area_full_range_is_zero {A : Type} (Omega : A) :
  area_Omega_S2 scipy Omega [0%R; PI] [0%R; (2 * PI)%R] = Ok (0%R, 0%R).
Proof. apply area_exact. Qed.

(** C7 (counterexample).  Called with the constant field [1] on
    [I_1 = [0, pi]] and [I_2 = [0, 2*pi]], [area_Omega_S2] with exact
    quadrature does not return a value within distance one of [1]. *)
Lemma area_of_constant_field_is_not_one :
  ~ exists v err,
      area_Omega_S2 scipy (fun _ _ _ _ : R => 1%R) [0%R; PI] [0%R; (2 * PI)%R]
      = Ok (v, err)
      /\ (Rabs (v - 1) < 1)%R.
Proof.
  intros (v & err & Harea & Hclose).
  rewrite area_exact in Harea. injection Harea as <- _.
  unfold Rabs in Hclose. destruct (Rcase_abs (0 - 1)); lra.
Qed.

(** ** The theorems at concrete inputs *)

Lemma square_scenario_witness :
  AlgebraLaws sympy
  /\ sympify sympy "1" = Ok (e_int sympy 1)
  /\ sympify sympy "x1" = Ok (e_symbol sympy "x1")
  /\ sympify sympy "x2" = Ok (e_symbol sympy "x2")
  /\ py_eq_True (arg_or_default None (PyBool false)) = false
  /\ snd (run sympy (PoissonWasserstein_R2 sympy scipy "1" "1" "x1" "x2" None))
     = Ok (Exact (e_int sympy 1)).
Proof.
  pose proof algebra_laws as Hlaws.
  pose proof (sympify_parse _ _ parse_one) as H1.
  pose proof (sympify_parse _ _ parse_name_x1) as Hx1.
  pose proof (sympify_parse _ _ parse_name_x2) as Hx2.
  repeat (split; [assumption || reflexivity|]).
  apply (square_scenario sympy scipy Hlaws None); [assumption .. | reflexivity].
Defined.

Lemma torus_scenario_witness :
  AlgebraLaws sympy
  /\ sympify sympy "1" = Ok (e_int sympy 1)
  /\ sympify sympy "theta1" = Ok (e_symbol sympy "theta1")
  /\ sympify sympy "theta2" = Ok (e_symbol sympy "theta2")
  /\ py_eq_True (arg_or_default None (PyBool false)) = false
  /\ snd (run sympy
            (PoissonWasserstein_T2 sympy scipy "1" "1" "theta1" "theta2" None))
     = Ok (Exact (e_int sympy 1)).
Proof.
  pose proof algebra_laws as Hlaws.
  pose proof (sympify_parse _ _ parse_one) as H1.
  pose proof (sympify_parse _ _ parse_name_theta1) as Hx1.
  pose proof (sympify_parse _ _ parse_name_theta2) as Hx2.
  repeat (split; [assumption || reflexivity|]).
  apply (torus_scenario sympy scipy Hlaws None); [assumption .. | reflexivity].
Defined.

Lemma sphere_measure_before_normalization_after_witness :
  sympify sympy "1" = Ok (e_int sympy 1)
  /\ sympify sympy "theta" = Ok (e_symbol sympy "theta")
  /\ sympify sympy "phi" = Ok (e_symbol sympy "phi")
  /\ existsb (is_symbolic_integration sympy)
       (prelude sympy "1" "1" "theta" "phi"
          (e_symbol sympy "theta") (e_symbol sympy "phi") "theta" "phi")
     = false.
Proof.
  pose proof (sympify_parse _ _ parse_one) as H1.
  pose proof (sympify_parse _ _ parse_name_theta) as Hf.
  pose proof (sympify_parse _ _ parse_name_phi) as Hh.
  repeat (split; [assumption || reflexivity|]).
  apply (sphere_measure_before_normalization_after sympy scipy
           "1" "1" "theta" "phi" None _ _ _ _ H1 H1 Hf Hh).
Defined.

Lemma sphere_branches_same_domain_witness :
  FloatLaws sympy
  /\ sympify sympy "1" = Ok (e_int sympy 1)
  /\ sympify sympy "theta" = Ok (e_symbol sympy "theta")
  /\ sympify sympy "phi" = Ok (e_symbol sympy "phi")
  /\ py_eq_True (arg_or_default (Some (PyBool true)) (PyBool false)) = true
  /\ py_eq_True (arg_or_default None (PyBool false)) = false
  /\ integrations sympy []
       (fst (run sympy
               (PoissonWasserstein_S2 sympy scipy "1" "1" "theta" "phi"
                  (Some (PyBool true)))))
     = [("theta", 0%R, PI); ("phi", 0%R, (2 * PI)%R)].
Proof.
  pose proof float_laws as Hlaws.
  pose proof (sympify_parse _ _ parse_one) as H1.
  pose proof (sympify_parse _ _ parse_name_theta) as Hf.
  pose proof (sympify_parse _ _ parse_name_phi) as Hh.
  destruct sphere_first_integration as [i1 Hi1].
  repeat (split; [assumption || reflexivity|]).
  apply (sphere_branches_same_domain sympy scipy
           "1" "1" "theta" "phi" (Some (PyBool true)) None
           _ _ _ _ i1 Hlaws H1 H1 Hf Hh eq_refl eq_refl Hi1).
Defined.

Lemma parse_error_propagates_witness :
  first_parse_error sympy ["1"; "x1 +"; "x1"; "x2"]
  = Some (ExpressionParseError "x1 +")
  /\ snd (run sympy (PoissonWasserstein_T2 sympy scipy "1" "x1 +" "x1" "x2"
                       (Some (PyBool true))))
     = Raise (ExpressionParseError "x1 +").
Proof.
  assert (Hfirst : first_parse_error sympy ["1"; "x1 +"; "x1"; "x2"]
                   = Some (ExpressionParseError "x1 +")).
  { cbn [first_parse_error].
    rewrite (sympify_parse _ _ parse_one).
    change (sympify sympy "x1 +") with (omap denote (parse "x1 +")).
    now rewrite parse_dangling. }
  split; [exact Hfirst|].
  apply (parse_error_propagates sympy scipy "1" "x1 +" "x1" "x2"
           (Some (PyBool true)) (ExpressionParseError "x1 +")
           (PoissonWasserstein_T2 sympy scipy));
    [right; left; reflexivity | exact Hfirst].
Defined.


(** * Further properties of the bracket evaluators *)

Section EvaluatorEnds.

Context {np : NumPy} (sym : SymPy np) (sci : SciPy np).

Local Open Scope string_scope.

(** What a run yields does not depend on the log it extends. *)
Lemma exact_run_outcome pre pre' u r1 r2 post :
  snd (exact_run sym pre u r1 r2 post) = snd (exact_run sym pre' u r1 r2 post).
Proof.
  destruct r1 as [[v1 lo1] hi1], r2 as [[v2 lo2] hi2]. unfold exact_run.
  destruct (integrate sym u _); reflexivity.
Qed.








End EvaluatorEnds.

Section EvaluatorAlgebra.

Context {np : NumPy} (sym : SymPy np) (sci : SciPy np).

Hypothesis laws : AlgebraLaws sym.

Add Ring expr_ring' : (e_ring sym laws).

Local Open Scope string_scope.

(** The exact end of a run on the zero integrand, between numbers. *)
Lemma exact_run_zero pre u x1 lo1 hi1 x2 lo2 hi2 post :
  u = e_int sym 0 ->
  number sym lo1 -> number sym hi1 -> number sym lo2 -> number sym hi2 ->
  post (e_int sym 0) = e_int sym 0 ->
  snd (exact_run sym pre u (x1, lo1, hi1) (x2, lo2, hi2) post)
  = Ok (Exact (e_int sym 0)).
Proof.
  intros -> Hlo1 Hhi1 Hlo2 Hhi2 Hpost. unfold exact_run.
  rewrite (integrate_number sym laws) by constructor.
  cbn [snd omap obind].
  rewrite (integrate_number sym laws) by (repeat constructor; assumption).
  cbn [obind].
  replace (e_mul sym (e_mul sym (e_int sym 0) (e_sub sym hi1 lo1))
             (e_sub sym hi2 lo2)) with (e_int sym 0) by ring.
  cbn [omap obind]. now rewrite Hpost.
Qed.

Lemma norm_times_zero c : e_mul sym c (e_int sym 0) = e_int sym 0.
Proof. ring. Qed.

(** The exact outcome of each evaluator when the bracket term is zero. *)
Lemma zero_bracket_outcome
  tau rho function1 function2 numerical T Rh ff hh evaluate :
  In evaluate (evaluators sym sci) ->
  sympify sym tau = Ok T -> sympify sym rho = Ok Rh ->
  sympify sym function1 = Ok ff -> sympify sym function2 = Ok hh ->
  py_eq_True (arg_or_default numerical (PyBool false)) = false ->
  (forall c1 c2,
      e_sub sym (e_mul sym (diff sym ff c1) (diff sym hh c2))
        (e_mul sym (diff sym hh c1) (diff sym ff c2)) = e_int sym 0) ->
  snd (run sym (evaluate tau rho function1 function2 numerical))
  = Ok (Exact (e_int sym 0)).
Proof.
  intros Hin HT HR Hf Hh Hflag Hzero.
  assert (Hb : forall c1 c2, bracket sym ff hh T c1 c2 = e_int sym 0).
  { intros c1 c2. unfold bracket. rewrite Hzero. ring. }
  destruct Hin as [<- | [<- | [<- | []]]];
    [ rewrite (run_R2 sym sci _ _ _ _ _ _ _ _ _ HT HR Hf Hh)
    | rewrite (run_T2 sym sci _ _ _ _ _ _ _ _ _ HT HR Hf Hh)
    | rewrite (run_S2 sym sci _ _ _ _ _ _ _ _ _ HT HR Hf Hh) ];
    rewrite Hflag, Hb;
    apply exact_run_zero;
    try (unfold two_sym_pi; repeat constructor);
    try apply norm_times_zero; try reflexivity; ring.
Qed.

(** X4.  The bracket of a function with itself vanishes: in the exact mode,
    every evaluator called with the same string for [function1] and
    [function2] returns the expression [0], for every algebra engine obeying
    [AlgebraLaws]. *)
Theorem self_bracket_vanishes tau rho function numerical T Rh ff evaluate :
  In evaluate (evaluators sym sci) ->
  sympify sym tau = Ok T -> sympify sym rho = Ok Rh ->
  sympify sym function = Ok ff ->
  py_eq_True (arg_or_default numerical (PyBool false)) = false ->
  snd (run sym (evaluate tau rho function function numerical))
  = Ok (Exact (e_int sym 0)).
Proof.
  intros Hin HT HR Hf Hflag.
  apply (zero_bracket_outcome _ _ _ _ _ T Rh ff ff); try assumption.
  intros c1 c2. ring.
Qed.

(** X5.  The bracket with a constant vanishes: in the exact mode, every
    evaluator whose [function2] parses to a number returns the expression
    [0], whatever [tau], [rho] and [function1] are, for every algebra engine
    obeying [AlgebraLaws] in which a number differentiates to zero. *)
Theorem constant_bracket_vanishes
  tau rho function1 function2 numerical T Rh ff c evaluate :
  ConstantLaws sym ->
  In evaluate (evaluators sym sci) ->
  sympify sym tau = Ok T -> sympify sym rho = Ok Rh ->
  sympify sym function1 = Ok ff -> sympify sym function2 = Ok c ->
  number sym c ->
  py_eq_True (arg_or_default numerical (PyBool false)) = false ->
  snd (run sym (evaluate tau rho function1 function2 numerical))
  = Ok (Exact (e_int sym 0)).
Proof.
  intros [Hdiff] Hin HT HR Hf Hh Hc Hflag.
  apply (zero_bracket_outcome _ _ _ _ _ T Rh ff c); try assumption.
  intros c1 c2. rewrite (Hdiff c c1 Hc), (Hdiff c c2 Hc). ring.
Qed.

(** X6.  The conformal factor and the density enter through their product
    only: with four strings that parse, exchanging [tau] and [rho] leaves
    what every evaluator yields unchanged, in either mode. *)
Theorem tau_rho_exchange
  tau rho function1 function2 numerical T Rh ff hh evaluate :
  In evaluate (evaluators sym sci) ->
  sympify sym tau = Ok T -> sympify sym rho = Ok Rh ->
  sympify sym function1 = Ok ff -> sympify sym function2 = Ok hh ->
  snd (run sym (evaluate rho tau function1 function2 numerical))
  = snd (run sym (evaluate tau rho function1 function2 numerical)).
Proof.
  intros Hin HT HR Hf Hh.
  assert (Hswap : forall c1 c2,
             e_mul sym (bracket sym ff hh Rh c1 c2) T
             = e_mul sym (bracket sym ff hh T c1 c2) Rh).
  { intros c1 c2. unfold bracket. ring. }
  destruct Hin as [<- | [<- | [<- | []]]];
    [ rewrite (run_R2 sym sci _ _ _ _ _ _ _ _ _ HR HT Hf Hh),
        (run_R2 sym sci _ _ _ _ _ _ _ _ _ HT HR Hf Hh)
    | rewrite (run_T2 sym sci _ _ _ _ _ _ _ _ _ HR HT Hf Hh),
        (run_T2 sym sci _ _ _ _ _ _ _ _ _ HT HR Hf Hh)
    | rewrite (run_S2 sym sci _ _ _ _ _ _ _ _ _ HR HT Hf Hh),
        (run_S2 sym sci _ _ _ _ _ _ _ _ _ HT HR Hf Hh) ];
    rewrite Hswap;
    (destruct (py_eq_True _); [reflexivity | apply exact_run_outcome]).
Qed.

End EvaluatorAlgebra.

Section EvaluatorDomains.

Context {np : NumPy} (sym : SymPy np) (sci : SciPy np).

Local Open Scope string_scope.

(** X9.  On the square the two branches integrate over the same domain in
    the same order: [x1] innermost over [0, 1], then [x2] over [0, 1].  The
    numerical branch gives [dblquad] a callable whose first argument, the
    inner variable, is [x1], with constant bounds; the exact branch
    integrates over [x1] first; the numerical bounds are the floats of the
    symbolic ones. *)
Theorem square_branches_same_domain
  tau rho function1 function2 n_numerical n_exact T Rh ff hh i1 :
  FloatLaws sym ->
  sympify sym tau = Ok T -> sympify sym rho = Ok Rh ->
  sympify sym function1 = Ok ff -> sympify sym function2 = Ok hh ->
  py_eq_True (arg_or_default n_numerical (PyBool false)) = true ->
  py_eq_True (arg_or_default n_exact (PyBool false)) = false ->
  integrate sym (e_mul sym (bracket sym ff hh T "x1" "x2") Rh)
    ("x1", e_int sym 0, e_int sym 1) = Ok i1 ->
  let numerical_log :=
    fst (run sym (PoissonWasserstein_R2 sym sci tau rho function1 function2
                    n_numerical)) in
  let exact_log :=
    fst (run sym (PoissonWasserstein_R2 sym sci tau rho function1 function2
                    n_exact)) in
  let domain :=
    [("x1", f_of_Z np 0, f_of_Z np 1); ("x2", f_of_Z np 0, f_of_Z np 1)] in
  integrations sym [] numerical_log = domain
  /\ integrations sym [] exact_log = domain
  /\ last numerical_log (ESympify sym EmptyString)
     = EDblquad sym
         (fun x1 x2 =>
            lambdify sym ["x1"; "x2"]
              (e_mul sym (bracket sym ff hh T "x1" "x2") Rh) "numpy" [x1; x2])
         (f_of_Z np 0) (f_of_Z np 1)
         (fun _ => f_of_Z np 0) (fun _ => f_of_Z np 1)
  /\ filter (is_symbolic_integration sym) exact_log
     = [EIntegrate sym (e_mul sym (bracket sym ff hh T "x1" "x2") Rh)
          "x1" (e_int sym 0) (e_int sym 1);
        EIntegrate sym i1 "x2" (e_int sym 0) (e_int sym 1)].
Proof.
  intros [Hint Hpi Hmul] HT HR Hf Hh Hnum Hex Hi1 numerical_log exact_log domain.
  subst numerical_log exact_log domain.
  rewrite !(run_R2 sym sci _ _ _ _ _ _ _ _ _ HT HR Hf Hh), Hnum, Hex.
  unfold numeric_run, exact_run. rewrite Hi1. cbn.
  rewrite !Hint. repeat split; reflexivity.
Qed.

(** X10.  On the torus the two branches integrate over the same domain in
    the same order: [theta1] innermost over [0, 2*pi], then [theta2] over
    [0, 2*pi].  The numerical branch gives [dblquad] a callable whose first
    argument, the inner variable, is [theta1], and hands it the symbolic
    bound [2*pi] itself; the exact branch integrates over [theta1] first. *)
Theorem torus_branches_same_domain
  tau rho function1 function2 n_numerical n_exact T Rh ff hh i1 :
  FloatLaws sym ->
  sympify sym tau = Ok T -> sympify sym rho = Ok Rh ->
  sympify sym function1 = Ok ff -> sympify sym function2 = Ok hh ->
  py_eq_True (arg_or_default n_numerical (PyBool false)) = true ->
  py_eq_True (arg_or_default n_exact (PyBool false)) = false ->
  integrate sym (e_mul sym (bracket sym ff hh T "theta1" "theta2") Rh)
    ("theta1", e_int sym 0, two_sym_pi sym) = Ok i1 ->
  let numerical_log :=
    fst (run sym (PoissonWasserstein_T2 sym sci tau rho function1 function2
                    n_numerical)) in
  let exact_log :=
    fst (run sym (PoissonWasserstein_T2 sym sci tau rho function1 function2
                    n_exact)) in
  let domain :=
    [("theta1", f_of_Z np 0, f_mul np (f_of_Z np 2) (np_pi np));
     ("theta2", f_of_Z np 0, f_mul np (f_of_Z np 2) (np_pi np))] in
  integrations sym [] numerical_log = domain
  /\ integrations sym [] exact_log = domain
  /\ last numerical_log (ESympify sym EmptyString)
     = EDblquad sym
         (fun theta1 theta2 =>
            lambdify sym ["theta1"; "theta2"]
              (e_mul sym (norm_T2 sym)
                 (e_mul sym (bracket sym ff hh T "theta1" "theta2") Rh))
              "numpy" [theta1; theta2])
         (f_of_Z np 0) (to_float sym (two_sym_pi sym))
         (fun _ => f_of_Z np 0) (fun _ => to_float sym (two_sym_pi sym))
  /\ filter (is_symbolic_integration sym) exact_log
     = [EIntegrate sym (e_mul sym (bracket sym ff hh T "theta1" "theta2") Rh)
          "theta1" (e_int sym 0) (two_sym_pi sym);
        EIntegrate sym i1 "theta2" (e_int sym 0) (two_sym_pi sym)].
Proof.
  intros [Hint Hpi Hmul] HT HR Hf Hh Hnum Hex Hi1 numerical_log exact_log domain.
  subst numerical_log exact_log domain.
  rewrite !(run_T2 sym sci _ _ _ _ _ _ _ _ _ HT HR Hf Hh), Hnum, Hex.
  unfold numeric_run, exact_run. rewrite Hi1. cbn.
  unfold two_sym_pi.
  rewrite !Hmul, !Hint, !Hpi. repeat split; reflexivity.
Qed.

End EvaluatorDomains.

(** * Further properties of the area integrator *)

Section AreaBounds.

Context {np : NumPy} (sci : SciPy np).

(** X1.  When [I_2] has fewer than two elements, [area_Omega_S2] raises
    [IndexError] before any quadrature is called, whatever [I_1] and the
    quadrature are. *)
Theorem area_short_I_2_raises {A : Type} (Omega : A) (I_1 I_2 : list (float np)) :
  (List.length I_2 < 2)%nat ->
  area_Omega_S2 sci Omega I_1 I_2 = Raise IndexError.
Proof.
  intros Hlen. destruct I_2 as [|c [|d more]]; cbn in Hlen.
  - reflexivity.
  - reflexivity.
  - exfalso. apply (Nat.lt_irrefl 2).
    apply (Nat.le_lt_trans _ (S (S (List.length more)))); [|exact Hlen].
    do 2 apply le_n_S. apply Nat.le_0_l.
Qed.

(** X2.  When [I_1] has fewer than two elements and [I_2] has two, no inner
    quadrature is called: the outermost quadrature, over [I_2], is called on
    an integrand that raises [IndexError] wherever it is called, and what it
    makes of that is what [area_Omega_S2] returns. *)
Theorem area_short_I_1_integrand_raises
  {A : Type} (Omega : A) (I_1 : list (float np)) c d more :
  (List.length I_1 < 2)%nat ->
  area_Omega_S2 sci Omega I_1 (c :: d :: more)
  = quad sci (fun _ => Raise IndexError) c d.
Proof.
  intros Hlen. destruct I_1 as [|a [|b more1]]; cbn in Hlen.
  - reflexivity.
  - reflexivity.
  - exfalso. apply (Nat.lt_irrefl 2).
    apply (Nat.le_lt_trans _ (S (S (List.length more1)))); [|exact Hlen].
    do 2 apply le_n_S. apply Nat.le_0_l.
Qed.

End AreaBounds.

(** * Further properties on the exact collaborators *)

Module IdealModes.

Import Syntax Ideal IdealFacts Coordinates.

Local Open Scope R_scope.

Lemma primitive_scal k g G :
  primitive g G -> primitive (fun v => k * g v) (fun v => k * G v).
Proof.
  intros H v. exact (derivable_pt_lim_scal G k v (g v) (H v)).
Qed.

(** A symbolic integration that succeeds is the increment of the chosen
    antiderivative. *)
Lemma integral_ok e x lo hi i :
  integral e (x, lo, hi) = Ok i ->
  (forall rho, primitive (section_of e rho x)
                 (some_primitive (section_of e rho x)))
  /\ i = (fun rho => some_primitive (section_of e rho x) (hi rho)
                     - some_primitive (section_of e rho x) (lo rho)).
Proof.
  unfold integral.
  destruct (excluded_middle_informative _) as [Hex | _]; [|discriminate].
  intros [= <-]. split; [|reflexivity].
  intros rho. destruct (Hex rho) as [G HG]. exact (some_primitive_spec _ G HG).
Qed.

(** The exact double quadrature of a lambdified multiple of an expression
    whose two symbolic integrations succeed. *)
Lemma exact_dblquad_of_integrals e e' k c1 c2 lo1 hi1 lo2 hi2 i1 i2 :
  (forall rho, e' rho = k * e rho) ->
  (forall rho rho', lo1 rho = lo1 rho') ->
  (forall rho rho', hi1 rho = hi1 rho') ->
  integral e (c1, lo1, hi1) = Ok i1 ->
  integral i1 (c2, lo2, hi2) = Ok i2 ->
  exact_dblquad (fun y x => lambdified [c1; c2] e' "numpy" [y; x])
    (lo2 (fun _ => 0)) (hi2 (fun _ => 0))
    (fun _ => lo1 (fun _ => 0)) (fun _ => hi1 (fun _ => 0))
  = Ok (k * i2 (fun _ => 0), 0).
Proof.
  intros He' Hlo Hhi H1 H2.
  destruct (integral_ok _ _ _ _ _ H1) as [Hp1 ->].
  destruct (integral_ok _ _ _ _ _ H2) as [Hp2 ->].
  unfold exact_dblquad.
  set (rho0 := fun _ : string => 0).
  set (i1 := fun rho => some_primitive (section_of e rho c1) (hi1 rho)
                        - some_primitive (section_of e rho c1) (lo1 rho)) in *.
  assert (Hinner : (fun x =>
                      omap fst
                        (exact_quad
                           (fun y => lambdified [c1; c2] e' "numpy" [y; x])
                           (lo1 rho0) (hi1 rho0)))
                   = (fun x => Ok (k * section_of i1 rho0 c2 x))).
  { apply functional_extensionality; intros x.
    rewrite (exact_quad_eval _
               (fun y => k * section_of e (upd rho0 c2 x) c1 y)
               (fun y => k * some_primitive (section_of e (upd rho0 c2 x) c1) y)).
    - cbn [omap obind fst]. f_equal. unfold i1, section_of.
      rewrite (Hhi (upd rho0 c2 x) rho0), (Hlo (upd rho0 c2 x) rho0). ring.
    - intros y. unfold lambdified. cbn [bind_args]. now rewrite He'.
    - apply primitive_scal, Hp1. }
  rewrite Hinner.
  rewrite (exact_quad_eval _ (fun x => k * section_of i1 rho0 c2 x)
             (fun x => k * some_primitive (section_of i1 rho0 c2) x)).
  - do 2 f_equal. ring.
  - intros x. reflexivity.
  - apply primitive_scal, Hp2.
Qed.

(** Expressions that depend on the coordinates only. *)
Lemma upd_agree vars (rho rho' : env) x v :
  (forall y, In y vars -> rho y = rho' y) ->
  forall y, In y vars -> upd rho x v y = upd rho' x v y.
Proof.
  intros Hag y Hy. unfold upd. destruct (String.eqb y x); auto.
Qed.

Lemma depends_derivative vars e x :
  In x vars -> depends_only_on vars e ->
  depends_only_on vars (derivative e x).
Proof.
  intros Hx He rho rho' Hag. unfold derivative.
  replace (section_of e rho' x) with (section_of e rho x).
  - now rewrite (Hag x Hx).
  - apply functional_extensionality; intros v. unfold section_of.
    apply He. now apply upd_agree.
Qed.

Lemma depends_mul vars (u v : rfun) :
  depends_only_on vars u -> depends_only_on vars v ->
  depends_only_on vars (e_mul sympy u v).
Proof.
  intros Hu Hv rho rho' Hag. cbn. now rewrite (Hu _ _ Hag), (Hv _ _ Hag).
Qed.

Lemma depends_sub vars (u v : rfun) :
  depends_only_on vars u -> depends_only_on vars v ->
  depends_only_on vars (e_sub sympy u v).
Proof.
  intros Hu Hv rho rho' Hag. cbn. now rewrite (Hu _ _ Hag), (Hv _ _ Hag).
Qed.

Lemma depends_bracket c1 c2 (ff hh T : rfun) :
  depends_only_on [c1; c2] ff -> depends_only_on [c1; c2] hh ->
  depends_only_on [c1; c2] T ->
  depends_only_on [c1; c2] (bracket sympy ff hh T c1 c2).
Proof.
  intros Hf Hh HT. unfold bracket.
  assert (H1 : In c1 [c1; c2]) by (left; reflexivity).
  assert (H2 : In c2 [c1; c2]) by (right; left; reflexivity).
  apply depends_mul; [|exact HT].
  apply depends_sub; apply depends_mul;
    apply (depends_derivative [c1; c2]); assumption.
Qed.

(** Integrating over a symbol removes it from what the result depends on. *)
Lemma depends_integral vars e x lo hi i :
  depends_only_on (x :: vars) e ->
  (forall rho rho', lo rho = lo rho') ->
  (forall rho rho', hi rho = hi rho') ->
  integral e (x, lo, hi) = Ok i ->
  depends_only_on vars i.
Proof.
  intros He Hlo Hhi Hint rho rho' Hag.
  destruct (integral_ok _ _ _ _ _ Hint) as [_ ->].
  replace (section_of e rho' x) with (section_of e rho x).
  - now rewrite (Hlo rho rho'), (Hhi rho rho').
  - apply functional_extensionality; intros v. unfold section_of.
    apply He. intros y [<- | Hy].
    + now rewrite !upd_same.
    + now apply upd_agree with (vars := vars).
Qed.

(** An expression integrated over both coordinates is a constant. *)
Lemma double_integral_constant c1 c2 e lo1 hi1 lo2 hi2 i1 i2 :
  depends_only_on [c1; c2] e ->
  (forall rho rho', lo1 rho = lo1 rho') ->
  (forall rho rho', hi1 rho = hi1 rho') ->
  (forall rho rho', lo2 rho = lo2 rho') ->
  (forall rho rho', hi2 rho = hi2 rho') ->
  integral e (c1, lo1, hi1) = Ok i1 ->
  integral i1 (c2, lo2, hi2) = Ok i2 ->
  forall rho rho', i2 rho = i2 rho'.
Proof.
  intros He Hlo1 Hhi1 Hlo2 Hhi2 H1 H2 rho rho'.
  assert (Hi1 : depends_only_on [c2] i1)
    by exact (depends_integral [c2] e c1 lo1 hi1 i1 He Hlo1 Hhi1 H1).
  assert (Hi2 : depends_only_on [] i2)
    by exact (depends_integral [] i1 c2 lo2 hi2 i2 Hi1 Hlo2 Hhi2 H2).
  apply Hi2. intros y [].
Qed.

(** X11.  The two modes agree: with the exact collaborators and four strings
    whose expressions depend on the evaluator's two coordinates only (no
    free parameter, on which the numerical callable would raise), whenever
    an evaluator returns an expression in the exact mode, that expression is
    a constant, and the evaluator returns in the numerical mode the value of
    that constant with the error estimate zero. *)
Theorem modes_agree
  tau rho function1 function2 n_exact n_numerical T Rh ff hh evaluate vars v :
  In (evaluate, vars) evaluators_with_coordinates ->
  sympify sympy tau = Ok T -> sympify sympy rho = Ok Rh ->
  sympify sympy function1 = Ok ff -> sympify sympy function2 = Ok hh ->
  depends_only_on vars T -> depends_only_on vars Rh ->
  depends_only_on vars ff -> depends_only_on vars hh ->
  py_eq_True (arg_or_default n_exact (PyBool false)) = false ->
  py_eq_True (arg_or_default n_numerical (PyBool false)) = true ->
  snd (run sympy (evaluate tau rho function1 function2 n_exact))
  = Ok (Exact v) ->
  snd (run sympy (evaluate tau rho function1 function2 n_numerical))
  = Ok (Numeric (to_float sympy v, 0))
  /\ forall rho0 : env, v rho0 = to_float sympy v.
Proof.
  intros Hin HT HR Hf Hh HdT HdR Hdf Hdh Hex Hnum.
  assert (Hconst0 : forall rho rho' : env, e_int sympy 0 rho = e_int sympy 0 rho')
    by reflexivity.
  assert (Hconst1 : forall rho rho' : env, e_int sympy 1 rho = e_int sympy 1 rho')
    by reflexivity.
  assert (Hconstpi : forall rho rho' : env, e_pi sympy rho = e_pi sympy rho')
    by reflexivity.
  assert (Hconst2pi : forall rho rho' : env,
             two_sym_pi sympy rho = two_sym_pi sympy rho') by reflexivity.
  destruct Hin as [[= <- <-] | [[= <- <-] | [[= <- <-] | []]]].
  - rewrite !(run_R2 sympy scipy _ _ _ _ _ _ _ _ _ HT HR Hf Hh), Hex, Hnum.
    unfold exact_run, numeric_run; cbn [snd].
    destruct (integrate sympy _ _) as [i1|] eqn:E1; [|discriminate].
    cbn [snd].
    destruct (integrate sympy i1 _) as [i2|] eqn:E2; [|discriminate].
    intros [= <-].
    assert (Hc := double_integral_constant "x1" "x2" _ _ _ _ _ i1 i2
                    (depends_mul _ _ _ (depends_bracket _ _ _ _ _ Hdf Hdh HdT)
                       HdR)
                    Hconst0 Hconst1 Hconst0 Hconst1 E1 E2).
    split; [|intros rho0; apply Hc].
    change (dblquad scipy) with exact_dblquad.
    change (lambdify sympy) with lambdified.
    erewrite (exact_dblquad_of_integrals _ _ 1 "x1" "x2"
                (e_int sympy 0) (e_int sympy 1) (e_int sympy 0) (e_int sympy 1)
                i1 i2 _ _ _ E1 E2).
    cbn. do 3 f_equal. ring.
  - rewrite !(run_T2 sympy scipy _ _ _ _ _ _ _ _ _ HT HR Hf Hh), Hex, Hnum.
    unfold exact_run, numeric_run; cbn [snd].
    destruct (integrate sympy _ _) as [i1|] eqn:E1; [|discriminate].
    cbn [snd].
    destruct (integrate sympy i1 _) as [i2|] eqn:E2; [|discriminate].
    intros [= <-].
    assert (Hc := double_integral_constant "theta1" "theta2" _ _ _ _ _ i1 i2
                    (depends_mul _ _ _ (depends_bracket _ _ _ _ _ Hdf Hdh HdT)
                       HdR)
                    Hconst0 Hconst2pi Hconst0 Hconst2pi E1 E2).
    split; [|intros rho0; cbn; now rewrite (Hc rho0 (fun _ => 0%R))].
    change (dblquad scipy) with exact_dblquad.
    change (lambdify sympy) with lambdified.
    erewrite (exact_dblquad_of_integrals _ _ (norm_T2 sympy (fun _ => 0))
                "theta1" "theta2"
                (e_int sympy 0) (two_sym_pi sympy)
                (e_int sympy 0) (two_sym_pi sympy)
                i1 i2 _ _ _ E1 E2).
    reflexivity.
  - rewrite !(run_S2 sympy scipy _ _ _ _ _ _ _ _ _ HT HR Hf Hh), Hex, Hnum.
    unfold exact_run, numeric_run; cbn [snd].
    destruct (integrate sympy _ _) as [i1|] eqn:E1; [|discriminate].
    cbn [snd].
    destruct (integrate sympy i1 _) as [i2|] eqn:E2; [|discriminate].
    intros [= <-].
    assert (Hsin : depends_only_on ["theta"; "phi"]
                     (e_sin sympy (e_symbol sympy "theta"))).
    { intros env1 env2 Hag. cbn. rewrite (Hag "theta"); [reflexivity|].
      left; reflexivity. }
    assert (Hc := double_integral_constant "theta" "phi" _ _ _ _ _ i1 i2
                    (depends_mul _ _ _
                       (depends_mul _ _ _
                          (depends_bracket _ _ _ _ _ Hdf Hdh HdT) HdR)
                       Hsin)
                    Hconst0 Hconstpi Hconst0 Hconst2pi E1 E2).
    split; [|intros rho0; cbn; now rewrite (Hc rho0 (fun _ => 0%R))].
    change (dblquad scipy) with exact_dblquad.
    change (lambdify sympy) with lambdified.
    erewrite (exact_dblquad_of_integrals _ _ (norm_S2 sympy (fun _ => 0))
                "theta" "phi"
                (e_int sympy 0) (e_pi sympy)
                (e_int sympy 0) (two_sym_pi sympy)
                i1 i2 _ _ _ E1 E2).
    reflexivity.
  Unshelve.
  all: try (intros; reflexivity).
  all: intros env0; symmetry; apply Rmult_1_l.
Qed.

End IdealModes.

Module IdealMore.

Import Syntax Ideal IdealFacts.

Local Open Scope R_scope.

Theorem constant_laws : ConstantLaws sympy.
Proof.
  constructor. intros c x Hc.
  apply functional_extensionality; intros rho.
  apply derivative_eval.
  replace (section_of c rho x) with (fct_cte (c rho)).
  - apply derivable_pt_lim_const.
  - apply functional_extensionality; intros v. unfold section_of, fct_cte.
    apply (number_constant c Hc).
Qed.

(** X3.  With exact quadrature the area is [(0, 0)] on every pair of
    intervals, whatever their bounds and whatever is passed for the field:
    the built-in field [sin(theta) * cos(phi)] does not depend on the flow
    parameters and integrates to zero over the angles. *)
Theorem area_vanishes_on_all_intervals
  {A : Type} (Omega : A) (a b c d : R) (more1 more2 : list R) :
  area_Omega_S2 scipy Omega (a :: b :: more1) (c :: d :: more2) = Ok (0, 0).
Proof. apply area_exact. Qed.

End IdealMore.

(** ** The further theorems at concrete inputs *)

Import IdealModes IdealMore Coordinates.

(** On the square and on the torus with coordinate functions the first
    integration succeeds. *)
Lemma coordinate_first_integration c1 c2 lo hi :
  c1 <> c2 -> number sympy lo -> number sympy hi ->
  exists i1,
    integrate sympy
      (e_mul sympy
         (bracket sympy (e_symbol sympy c1) (e_symbol sympy c2)
            (e_int sympy 1) c1 c2)
         (e_int sympy 1))
      (c1, lo, hi) = Ok i1.
Proof.
  intros Hne Hlo Hhi.
  destruct (coordinate_integrand sympy algebra_laws c1 c2 Hne) as [Hnum _].
  eexists. apply (integrate_number sympy algebra_laws). exact Hnum.
Qed.

(** On the square with the coordinate functions, unit factor and unit
    density, the exact mode yields one and the numerical mode the pair
    (1, 0). *)
Lemma square_exact_value :
  snd (run sympy (PoissonWasserstein_R2 sympy scipy "1" "1" "x1" "x2" None))
  = Ok (Exact (e_int sympy 1)).
Proof.
  rewrite (run_R2 sympy scipy _ _ _ _ _ _ _ _ _
             (sympify_parse _ _ parse_one) (sympify_parse _ _ parse_one)
             (sympify_parse _ _ parse_name_x1)
             (sympify_parse _ _ parse_name_x2)).
  cbn [arg_or_default py_eq_True].
  destruct (coordinate_integrand sympy algebra_laws "x1" "x2") as [_ Hone];
    [discriminate|].
  unfold exact_run.
  change (denote (AVar "x1")) with (e_symbol sympy "x1").
  change (denote (AVar "x2")) with (e_symbol sympy "x2").
  change (denote (ANum 1)) with (e_int sympy 1).
  rewrite Hone.
  rewrite (integrate_number sympy algebra_laws) by constructor.
  cbn [snd omap obind].
  rewrite (integrate_number sympy algebra_laws) by (repeat constructor).
  cbn [omap obind]. do 2 f_equal.
  apply functional_extensionality; intros rho0. cbn. ring.
Qed.

Lemma square_numeric_value :
  snd (run sympy
         (PoissonWasserstein_R2 sympy scipy "1" "1" "x1" "x2"
            (Some (PyBool true))))
  = Ok (@Numeric numpy sympy (1%R, 0%R)).
Proof.
  rewrite (run_R2 sympy scipy _ _ _ _ _ _ _ _ _
             (sympify_parse _ _ parse_one) (sympify_parse _ _ parse_one)
             (sympify_parse _ _ parse_name_x1)
             (sympify_parse _ _ parse_name_x2)).
  cbn [arg_or_default py_eq_True].
  destruct (coordinate_integrand sympy algebra_laws "x1" "x2") as [_ Hone];
    [discriminate|].
  unfold numeric_run; cbn [snd].
  change (denote (AVar "x1")) with (e_symbol sympy "x1").
  change (denote (AVar "x2")) with (e_symbol sympy "x2").
  change (denote (ANum 1)) with (e_int sympy 1).
  rewrite Hone.
  change (dblquad scipy) with exact_dblquad.
  change (lambdify sympy) with lambdified.
  assert (E1 := integrate_number sympy algebra_laws (e_int sympy 1) "x1"
                  (e_int sympy 0) (e_int sympy 1) (number_int sympy 1)).
  assert (E2 := integrate_number sympy algebra_laws
                  (e_mul sympy (e_int sympy 1)
                     (e_sub sympy (e_int sympy 1) (e_int sympy 0)))
                  "x2" (e_int sympy 0) (e_int sympy 1)
                  ltac:(repeat constructor)).
  erewrite (exact_dblquad_of_integrals _ _ 1%R "x1" "x2"
              (e_int sympy 0) (e_int sympy 1) (e_int sympy 0) (e_int sympy 1)
              _ _ _ _ _ E1 E2).
  cbn. do 3 f_equal. ring.
  Unshelve.
  - intros rho0. cbn. ring.
  - reflexivity.
  - reflexivity.
Qed.

(** The partial derivatives of the product of the two coordinates. *)
Lemma product_derivatives :
  diff sympy (denote (AMul (AVar "x1") (AVar "x2"))) "x1" = e_symbol sympy "x2"
  /\ diff sympy (denote (AMul (AVar "x1") (AVar "x2"))) "x2"
     = e_symbol sympy "x1".
Proof.
  split; apply functional_extensionality; intros rho0; apply derivative_eval;
    unfold section_of; cbn.
  - assert (H := derivable_pt_lim_scal id (rho0 "x2") (rho0 "x1") 1%R
                   (derivable_pt_lim_id _)).
    rewrite Rmult_1_r in H.
    replace (fun v : R => (v * rho0 "x2")%R) with (mult_real_fct (rho0 "x2") id);
      [exact H|].
    apply functional_extensionality; intros v. unfold mult_real_fct, id.
    apply Rmult_comm.
  - assert (H := derivable_pt_lim_scal id (rho0 "x1") (rho0 "x2") 1%R
                   (derivable_pt_lim_id _)).
    rewrite Rmult_1_r in H. exact H.
Qed.

Lemma symbol_is_not_zero s : e_symbol sympy s <> e_int sympy 0.
Proof.
  intros H.
  assert (H1 := f_equal (fun e : rfun => e (fun _ => 1%R)) H).
  cbn in H1. lra.
Qed.

Lemma minus_one_is_not_one : e_neg sympy (e_int sympy 1) <> e_int sympy 1.
Proof.
  intros H.
  assert (H1 := f_equal (fun e : rfun => e (fun _ => 0%R)) H).
  cbn in H1. lra.
Qed.


Lemma bracket_antisymmetric_witness :
  NegationLaws sympy scipy
  /\ sympify sympy "1" = Ok (e_int sympy 1)
  /\ sympify sympy "x1" = Ok (e_symbol sympy "x1")
  /\ sympify sympy "x2" = Ok (e_symbol sympy "x2")
  /\ snd (run sympy (PoissonWasserstein_R2 sympy scipy "1" "1" "x1" "x2" None))
     = Ok (Exact (e_int sympy 1))
  /\ snd (run sympy (PoissonWasserstein_R2 sympy scipy "1" "1" "x2" "x1" None))
     = Ok (Exact (e_neg sympy (e_int sympy 1)))
  /\ e_neg sympy (e_int sympy 1) <> e_int sympy 1
  /\ snd (run sympy
            (PoissonWasserstein_R2 sympy scipy "1" "1" "x1" "x2"
               (Some (PyBool true))))
     = Ok (@Numeric numpy sympy (1%R, 0%R))
  /\ snd (run sympy
            (PoissonWasserstein_R2 sympy scipy "1" "1" "x2" "x1"
               (Some (PyBool true))))
     = Ok (@Numeric numpy sympy (Ropp 1, 0%R)).
Proof.
  pose proof negation_laws as Hlaws.
  pose proof (sympify_parse _ _ parse_one) as H1.
  pose proof (sympify_parse _ _ parse_name_x1) as Hf.
  pose proof (sympify_parse _ _ parse_name_x2) as Hh.
  pose proof square_exact_value as Hexact.
  pose proof square_numeric_value as Hnumeric.
  pose proof minus_one_is_not_one as Hne.
  repeat (split; [assumption|]).
  split; [|split; [assumption|split; [assumption|]]].
  - rewrite (bracket_antisymmetric sympy scipy Hlaws "1" "1" "x1" "x2" None
               _ _ _ _ (PoissonWasserstein_R2 sympy scipy)
               (or_introl eq_refl) H1 H1 Hf Hh).
    rewrite Hexact. reflexivity.
  - rewrite (bracket_antisymmetric sympy scipy Hlaws "1" "1" "x1" "x2"
               (Some (PyBool true))
               _ _ _ _ (PoissonWasserstein_R2 sympy scipy)
               (or_introl eq_refl) H1 H1 Hf Hh).
    rewrite Hnumeric. reflexivity.
Defined.



Lemma self_bracket_vanishes_witness :
  AlgebraLaws sympy
  /\ sympify sympy "1" = Ok (denote (ANum 1))
  /\ sympify sympy "x1*x2" = Ok (denote (AMul (AVar "x1") (AVar "x2")))
  /\ diff sympy (denote (AMul (AVar "x1") (AVar "x2"))) "x1"
     = e_symbol sympy "x2"
  /\ diff sympy (denote (AMul (AVar "x1") (AVar "x2"))) "x2"
     = e_symbol sympy "x1"
  /\ e_symbol sympy "x1" <> e_int sympy 0
  /\ e_symbol sympy "x2" <> e_int sympy 0
  /\ snd (run sympy
            (PoissonWasserstein_R2 sympy scipy "1" "1" "x1*x2" "x1*x2" None))
     = Ok (Exact (e_int sympy 0)).
Proof.
  pose proof algebra_laws as Hlaws.
  pose proof (sympify_parse _ _ parse_one) as H1.
  pose proof (sympify_parse _ _ parse_product) as Hf.
  destruct product_derivatives as [Hd1 Hd2].
  pose proof (symbol_is_not_zero "x1") as Hn1.
  pose proof (symbol_is_not_zero "x2") as Hn2.
  repeat (split; [assumption|]).
  exact (self_bracket_vanishes sympy scipy Hlaws "1" "1" "x1*x2" None _ _ _
           (PoissonWasserstein_R2 sympy scipy)
           (or_introl eq_refl) H1 H1 Hf eq_refl).
Defined.

Lemma constant_bracket_vanishes_witness :
  AlgebraLaws sympy
  /\ ConstantLaws sympy
  /\ sympify sympy "1" = Ok (e_int sympy 1)
  /\ sympify sympy "x1*x2" = Ok (denote (AMul (AVar "x1") (AVar "x2")))
  /\ number sympy (e_int sympy 1)
  /\ snd (run sympy
            (PoissonWasserstein_R2 sympy scipy "1" "1" "x1*x2" "1" None))
     = Ok (Exact (e_int sympy 0)).
Proof.
  pose proof algebra_laws as Hlaws.
  pose proof constant_laws as Hconst.
  pose proof (sympify_parse _ _ parse_one) as H1.
  pose proof (sympify_parse _ _ parse_product) as Hf.
  pose proof (number_int sympy 1) as Hnum.
  repeat (split; [assumption|]).
  exact (constant_bracket_vanishes sympy scipy Hlaws "1" "1" "x1*x2" "1" None
           _ _ _ _ (PoissonWasserstein_R2 sympy scipy)
           Hconst (or_introl eq_refl) H1 H1 Hf H1 Hnum eq_refl).
Defined.

Lemma tau_rho_exchange_witness :
  AlgebraLaws sympy
  /\ sympify sympy "x1*x2" = Ok (denote (AMul (AVar "x1") (AVar "x2")))
  /\ sympify sympy "1" = Ok (denote (ANum 1))
  /\ sympify sympy "x1" = Ok (denote (AVar "x1"))
  /\ sympify sympy "x2" = Ok (denote (AVar "x2"))
  /\ snd (run sympy
            (PoissonWasserstein_R2 sympy scipy "1" "x1*x2" "x1" "x2"
               (Some (PyBool true))))
     = snd (run sympy
              (PoissonWasserstein_R2 sympy scipy "x1*x2" "1" "x1" "x2"
                 (Some (PyBool true)))).
Proof.
  pose proof algebra_laws as Hlaws.
  pose proof (sympify_parse _ _ parse_product) as HT.
  pose proof (sympify_parse _ _ parse_one) as HR.
  pose proof (sympify_parse _ _ parse_name_x1) as Hf.
  pose proof (sympify_parse _ _ parse_name_x2) as Hh.
  repeat (split; [assumption|]).
  exact (tau_rho_exchange sympy scipy Hlaws "x1*x2" "1" "x1" "x2"
           (Some (PyBool true)) _ _ _ _ (PoissonWasserstein_R2 sympy scipy)
           (or_introl eq_refl) HT HR Hf Hh).
Defined.

Lemma square_branches_same_domain_witness :
  FloatLaws sympy
  /\ sympify sympy "1" = Ok (e_int sympy 1)
  /\ sympify sympy "x1" = Ok (e_symbol sympy "x1")
  /\ sympify sympy "x2" = Ok (e_symbol sympy "x2")
  /\ integrations sympy []
       (fst (run sympy
               (PoissonWasserstein_R2 sympy scipy "1" "1" "x1" "x2"
                  (Some (PyBool true)))))
     = [("x1", 0%R, 1%R); ("x2", 0%R, 1%R)].
Proof.
  pose proof float_laws as Hlaws.
  pose proof (sympify_parse _ _ parse_one) as H1.
  pose proof (sympify_parse _ _ parse_name_x1) as Hf.
  pose proof (sympify_parse _ _ parse_name_x2) as Hh.
  destruct (coordinate_first_integration "x1" "x2"
              (e_int sympy 0) (e_int sympy 1))
    as [i1 Hi1]; [discriminate | constructor | constructor |].
  repeat (split; [assumption|]).
  apply (square_branches_same_domain sympy scipy
           "1" "1" "x1" "x2" (Some (PyBool true)) None
           _ _ _ _ i1 Hlaws H1 H1 Hf Hh eq_refl eq_refl Hi1).
Defined.

Lemma torus_branches_same_domain_witness :
  FloatLaws sympy
  /\ sympify sympy "1" = Ok (e_int sympy 1)
  /\ sympify sympy "theta1" = Ok (e_symbol sympy "theta1")
  /\ sympify sympy "theta2" = Ok (e_symbol sympy "theta2")
  /\ integrations sympy []
       (fst (run sympy
               (PoissonWasserstein_T2 sympy scipy "1" "1" "theta1" "theta2"
                  (Some (PyBool true)))))
     = [("theta1", 0%R, (2 * PI)%R); ("theta2", 0%R, (2 * PI)%R)].
Proof.
  pose proof float_laws as Hlaws.
  pose proof (sympify_parse _ _ parse_one) as H1.
  pose proof (sympify_parse _ _ parse_name_theta1) as Hf.
  pose proof (sympify_parse _ _ parse_name_theta2) as Hh.
  destruct (coordinate_first_integration "theta1" "theta2"
              (e_int sympy 0) (two_sym_pi sympy))
    as [i1 Hi1];
    [discriminate | constructor | unfold two_sym_pi; repeat constructor |].
  repeat (split; [assumption|]).
  apply (torus_branches_same_domain sympy scipy
           "1" "1" "theta1" "theta2" (Some (PyBool true)) None
           _ _ _ _ i1 Hlaws H1 H1 Hf Hh eq_refl eq_refl Hi1).
Defined.

Lemma modes_agree_witness :
  In (PoissonWasserstein_R2 sympy scipy, ["x1"; "x2"])
    evaluators_with_coordinates
  /\ sympify sympy "1" = Ok (e_int sympy 1)
  /\ sympify sympy "x1" = Ok (e_symbol sympy "x1")
  /\ sympify sympy "x2" = Ok (e_symbol sympy "x2")
  /\ depends_only_on ["x1"; "x2"] (e_int sympy 1)
  /\ depends_only_on ["x1"; "x2"] (e_symbol sympy "x1")
  /\ depends_only_on ["x1"; "x2"] (e_symbol sympy "x2")
  /\ snd (run sympy (PoissonWasserstein_R2 sympy scipy "1" "1" "x1" "x2" None))
     = Ok (Exact (e_int sympy 1))
  /\ snd (run sympy
            (PoissonWasserstein_R2 sympy scipy "1" "1" "x1" "x2"
               (Some (PyBool true))))
     = Ok (Numeric (to_float sympy (e_int sympy 1), 0%R)).
Proof.
  assert (Hin : In (PoissonWasserstein_R2 sympy scipy, ["x1"; "x2"])
                  evaluators_with_coordinates) by (left; reflexivity).
  pose proof (sympify_parse _ _ parse_one) as H1.
  pose proof (sympify_parse _ _ parse_name_x1) as Hf.
  pose proof (sympify_parse _ _ parse_name_x2) as Hh.
  assert (Hd1 : depends_only_on ["x1"; "x2"] (e_int sympy 1))
    by (intros env1 env2 _; reflexivity).
  assert (Hdf : depends_only_on ["x1"; "x2"] (e_symbol sympy "x1"))
    by (intros env1 env2 Hag; apply Hag; left; reflexivity).
  assert (Hdh : depends_only_on ["x1"; "x2"] (e_symbol sympy "x2"))
    by (intros env1 env2 Hag; apply Hag; right; left; reflexivity).
  pose proof square_exact_value as Hv.
  repeat (split; [assumption|]).
  apply (modes_agree "1" "1" "x1" "x2" None (Some (PyBool true)) _ _ _ _
           (PoissonWasserstein_R2 sympy scipy) ["x1"; "x2"] (e_int sympy 1)
           Hin H1 H1 Hf Hh Hd1 Hd1 Hdf Hdh eq_refl eq_refl Hv).
Defined.

Lemma area_short_I_2_raises_witness :
  (List.length (@nil R) < 2)%nat
  /\ area_Omega_S2 scipy tt [0%R; 1%R] [] = Raise IndexError.
Proof.
  assert (Hlen : (List.length (@nil R) < 2)%nat) by (apply Nat.lt_0_succ).
  split; [exact Hlen|].
  exact (area_short_I_2_raises scipy tt [0%R; 1%R] [] Hlen).
Defined.

Lemma area_short_I_1_integrand_raises_witness :
  (List.length [1%R] < 2)%nat
  /\ area_Omega_S2 scipy tt [1%R] [0%R; 1%R]
     = quad scipy (fun _ => Raise IndexError) 0%R 1%R.
Proof.
  assert (Hlen : (List.length [1%R] < 2)%nat) by (apply Nat.lt_succ_diag_r).
  split; [exact Hlen|].
  exact (area_short_I_1_integrand_raises scipy tt [1%R] 0%R 1%R [] Hlen).
Defined.
